(** * The TTL cache of the weather app (infrastructure/cache.ts)

    A shallow embedding of [makeCache]: the [Ref] cell holding a JavaScript
    [Map] from string keys to cache entries, and the four operations
    [get], [set], [clear] and [size] built on it with [Effect.gen].

    Conventions of the embedding.
    - A [Date] is represented by its time value, an integer number of
      milliseconds; [new Date()] is a reading [now] handed to the operation
      that takes it, and comparing two dates compares their time values.
    - The numbers of the configuration ([ttlSeconds], [maxSize]) are
      integers; [accessCount], which starts at 0 and only ever grows by
      [++], is a natural number.  The limits of the JavaScript
      representations (time values beyond 8.64e15 ms, counts beyond 2^53,
      fractions) are outside the model.
    - A [Map] is the list of its [key, entry] pairs in iteration
      (insertion) order.  Map objects live in a heap and are named by
      references, because the [Ref] cell stores a reference and every
      callback passed to [Ref.update] mutates the referenced object in
      place and hands the same reference back. *)

From Stdlib Require Import ZArith List String Bool Arith Lia.
Import ListNotations.

Set Implicit Arguments.

Local Open Scope string_scope.
Local Open Scope Z_scope.
Local Open Scope list_scope.

(** ** Configuration and errors *)

(** [CacheConfigType] of domain/config.ts. *)
Record CacheConfigType := {
  enabled : bool;
  ttlSeconds : Z;
  maxSize : Z
}.

(** A [Date], by its time value in milliseconds. *)
Definition Date := Z.

(** The three tagged errors of the cache (errors.ts). *)
Inductive CacheError :=
| CacheMissError (key : string)
| CacheExpiredError (key : string) (cachedAt expiresAt : Date)
| CacheFullError (maxSize currentSize : Z).

(** What running an effect ends with. *)
Inductive Exit (A : Type) :=
| Success (a : A)
| Failure (e : CacheError).

Arguments Success {A} a.
Arguments Failure {A} e.

(** ** Effects: state passing with failure

    An effect is run against the store [S] of the program and ends with an
    [Exit] and the store it leaves behind. *)

Definition Effect (S A : Type) := S -> Exit A * S.

Definition Effect_succeed {S A} (a : A) : Effect S A := fun st => (Success a, st).

Definition Effect_fail {S A} (e : CacheError) : Effect S A := fun st => (Failure e, st).

(** [const x = yield* c; k]: a failure of [c] ends the generator. *)
Definition bind {S A B} (c : Effect S A) (k : A -> Effect S B) : Effect S B :=
  fun st =>
    match c st with
    | (Success a, st') => k a st'
    | (Failure e, st') => (Failure e, st')
    end.

Notation "x <- c ;; k" := (bind c (fun x => k))
  (at level 61, c at next level, right associativity).
Notation "c ;; k" := (bind c (fun _ => k))
  (at level 61, right associativity).

Section Cache.

(** The payload type: entries are stored as [CacheEntry<unknown>] and the
    cache never looks inside a value. *)
Variable V : Type.

(** ** Entries and maps *)

Record CacheEntry := {
  value : V;
  cachedAt : Date;
  expiresAt : Date;
  accessCount : nat
}.

(** [Map<string, CacheEntry<unknown>>], in iteration order. *)
Definition CacheState := list (string * CacheEntry).

Fixpoint Map_get (key : string) (m : CacheState) : option CacheEntry :=
  match m with
  | [] => None
  | (k, e) :: m' => if String.eqb k key then Some e else Map_get key m'
  end.

Definition Map_has (key : string) (m : CacheState) : bool :=
  match Map_get key m with Some _ => true | None => false end.

(** [m.set(key, e)]: an existing key keeps its place in the iteration order,
    a new key goes to the end. *)
Fixpoint Map_set (key : string) (e : CacheEntry) (m : CacheState) : CacheState :=
  match m with
  | [] => [(key, e)]
  | (k, e') :: m' =>
      if String.eqb k key then (k, e) :: m' else (k, e') :: Map_set key e m'
  end.

(** [m.delete(key)].  The keys of a Map are unique; on such a list this
    removes the one entry of [key]. *)
Definition Map_delete (key : string) (m : CacheState) : CacheState :=
  filter (fun ke => negb (String.eqb (fst ke) key)) m.

Definition Map_size (m : CacheState) : nat := List.length m.

(** The keys of a Map are pairwise distinct. *)
Fixpoint Map_ok (m : CacheState) : bool :=
  match m with
  | [] => true
  | (k, _) :: m' => negb (Map_has k m') && Map_ok m'
  end.

(** [const updated = s.get(key); if (updated) { updated.accessCount++ }]:
    the entry object is mutated where it sits in the Map. *)
Definition bump (e : CacheEntry) : CacheEntry :=
  {| value := value e; cachedAt := cachedAt e; expiresAt := expiresAt e;
     accessCount := S (accessCount e) |}.

Fixpoint Map_bump (key : string) (m : CacheState) : CacheState :=
  match m with
  | [] => []
  | (k, e) :: m' =>
      if String.eqb k key then (k, bump e) :: m' else (k, e) :: Map_bump key m'
  end.

(** ** The eviction scan of [set]

    [let lruKey = null; let minAccessCount = Infinity;
     for (const [k, entry] of state.entries())
       if (entry.accessCount < minAccessCount) { minAccessCount = ...; lruKey = k }]

    The loop state is the pair [(lruKey, minAccessCount)], with [None] for
    [null] and for [Infinity]. *)
Definition below (c : nat) (minAccessCount : option nat) : bool :=
  match minAccessCount with
  | None => true
  | Some m => Nat.ltb c m
  end.

Definition scan_step (acc : option string * option nat) (ke : string * CacheEntry)
  : option string * option nat :=
  if below (accessCount (snd ke)) (snd acc)
  then (Some (fst ke), Some (accessCount (snd ke)))
  else acc.

Definition lru_scan (m : CacheState) : option string * option nat :=
  fold_left scan_step m (None, None).

Definition lruKey (m : CacheState) : option string := fst (lru_scan m).

(** [if (lruKey)]: JavaScript truthiness of a [string | null].  [null] is
    falsy, and so is the empty string. *)
Definition truthy (k : option string) : bool :=
  match k with
  | None => false
  | Some s => negb (String.eqb s "")
  end.

(** ** The store: a heap of Map objects and the Ref cell *)

Definition MapRef := nat.

Record Store := {
  heap : MapRef -> CacheState;   (* the Map objects *)
  next_ref : MapRef;                (* the next unused reference *)
  cacheRef : MapRef              (* the content of the Ref cell *)
}.

(** The Map the Ref cell currently points to. *)
Definition current (st : Store) : CacheState := heap st (cacheRef st).

(** Reading and mutating a Map object through a reference. *)
Definition read (r : MapRef) : Effect Store CacheState :=
  fun st => (Success (heap st r), st).

Definition mutate (r : MapRef) (f : CacheState -> CacheState) : Effect Store unit :=
  fun st =>
    (Success tt,
     {| heap := fun r' => if Nat.eqb r' r then f (heap st r) else heap st r';
        next_ref := next_ref st;
        cacheRef := cacheRef st |}).

(** [new Map()]. *)
Definition new_Map (st : Store) : MapRef * Store :=
  (next_ref st,
   {| heap := fun r' => if Nat.eqb r' (next_ref st) then [] else heap st r';
      next_ref := S (next_ref st);
      cacheRef := cacheRef st |}).

Definition Ref_get : Effect Store MapRef := fun st => (Success (cacheRef st), st).

Definition Ref_set (r : MapRef) : Effect Store unit :=
  fun st => (Success tt, {| heap := heap st; next_ref := next_ref st; cacheRef := r |}).

(** [Ref.update(cacheRef, f)]: the cell receives what [f] returns for its
    content; [f] may mutate the heap on the way. *)
Definition Ref_update (f : MapRef -> Effect Store MapRef) : Effect Store unit :=
  s <- Ref_get ;; r <- f s ;; Ref_set r.

(** ** The operations of the cache service *)

Variable config : CacheConfigType.

(** [makeCache]: the store once [Ref.make<CacheState>(new Map())] has run. *)
Definition makeCache : Store :=
  {| heap := fun _ => []; next_ref := 1%nat; cacheRef := 0%nat |}.

(** [get(key)], run with the clock reading [now]. *)
Definition get (key : string) (now : Date) : Effect Store V :=
  state <- Ref_get ;;
  m <- read state ;;
  match Map_get key m with
  | None => Effect_fail (CacheMissError key)
  | Some entry =>
      if now >? expiresAt entry
      then
        Ref_update (fun s => mutate s (Map_delete key) ;; Effect_succeed s) ;;
        Effect_fail (CacheExpiredError key (cachedAt entry) (expiresAt entry))
      else
        Ref_update (fun s => mutate s (Map_bump key) ;; Effect_succeed s) ;;
        Effect_succeed (value entry)
  end.

(** The eviction block of [set], entered when the Map is at capacity and
    [key] is new: the scan, then [if (lruKey) { ...s.delete(lruKey!)... }
    else { fail CacheFullError }]. *)
Definition evict (m : CacheState) : Effect Store unit :=
  let k := lruKey m in
  if truthy k
  then
    Ref_update (fun s =>
      mutate s (match k with Some k' => Map_delete k' | None => fun m' => m' end) ;;
      Effect_succeed s)
  else
    Effect_fail (CacheFullError (maxSize config) (Z.of_nat (Map_size m))).

(** [set(key, value)], run with the clock reading [now]. *)
Definition set (key : string) (v : V) (now : Date) : Effect Store unit :=
  if negb (enabled config) then Effect_succeed tt
  else
    state <- Ref_get ;;
    m <- read state ;;
    (if (Z.of_nat (Map_size m) >=? maxSize config) && negb (Map_has key m)
     then evict m
     else Effect_succeed tt) ;;
    let entry :=
      {| value := v; cachedAt := now;
         expiresAt := now + ttlSeconds config * 1000;
         accessCount := 0 |} in
    Ref_update (fun s => mutate s (Map_set key entry) ;; Effect_succeed s).

(** [clear()].  The call itself evaluates [new Map()]; the effect it returns
    is [Ref.set(cacheRef, thatMap)]. *)
Definition clear (st : Store) : Effect Store unit * Store :=
  let (r, st') := new_Map st in (Ref_set r, st').

(** [size()]. *)
Definition size : Effect Store nat :=
  s <- Ref_get ;; m <- read s ;; Effect_succeed (Map_size m).

(** ** Histories of calls

    A client of the service calls an operation and runs the effect it got,
    one call after the other. *)
Inductive Call :=
| CallGet (key : string) (now : Date)
| CallSet (key : string) (v : V) (now : Date)
| CallClear
| CallSize.

Definition exec (c : Call) (st : Store) : Store :=
  match c with
  | CallGet key now => snd (get key now st)
  | CallSet key v now => snd (set key v now st)
  | CallClear => let (eff, st') := clear st in snd (eff st')
  | CallSize => snd (size st)
  end.

Definition run (cs : list Call) (st : Store) : Store :=
  fold_left (fun st c => exec c st) cs st.

(** The keys some [set] of the history was called with. *)
Fixpoint keys_set (cs : list Call) : list string :=
  match cs with
  | [] => []
  | CallSet key _ _ :: cs' => key :: keys_set cs'
  | _ :: cs' => keys_set cs'
  end.

(** [set] called on each binding of a list in turn, stopping at the first
    failure. *)
Fixpoint set_each (kvs : list (string * V * Date)) : Effect Store unit :=
  match kvs with
  | [] => Effect_succeed tt
  | (k, v, now) :: kvs' => set k v now ;; set_each kvs'
  end.

End Cache.

Arguments makeCache : clear implicits.
Arguments CallClear {V}.
Arguments CallSize {V}.
Arguments CallGet {V} key now.

(** The store in which the Map of the Ref cell has been changed by [f] and
    everything else is as before: what [Ref.update] leaves behind when its
    callback mutates the Map and returns it. *)
Definition with_current {V} (f : CacheState V -> CacheState V) (st : Store V) : Store V :=
  {| heap := fun r' => if Nat.eqb r' (cacheRef st) then f (current st) else heap st r';
     next_ref := next_ref st;
     cacheRef := cacheRef st |}.

(** The entry [set] builds for [v] at the clock reading [now]. *)
Definition new_entry {V} (config : CacheConfigType) (v : V) (now : Date) : CacheEntry V :=
  {| value := v; cachedAt := now;
     expiresAt := now + ttlSeconds config * 1000;
     accessCount := 0 |}.

(** [first_least m l1 k e l2]: [(k, e)] is the first entry of [m], in
    iteration order, whose [accessCount] is least among all entries; [l1] are
    the entries before it and [l2] those after it. *)
Definition first_least {V} (m l1 : CacheState V) (k : string) (e : CacheEntry V)
    (l2 : CacheState V) : Prop :=
  m = l1 ++ (k, e) :: l2 /\
  (forall k' e', In (k', e') l1 -> (accessCount e < accessCount e')%nat) /\
  (forall k' e', In (k', e') l2 -> (accessCount e <= accessCount e')%nat).

(** The test that sends [set] into its eviction block:
    [state.size >= config.maxSize && !state.has(key)]. *)
Definition must_evict {V} (config : CacheConfigType) (key : string) (m : CacheState V) : bool :=
  (Z.of_nat (Map_size m) >=? maxSize config) && negb (Map_has key m).

(** The Ref cell points to an allocated Map. *)
Definition Store_ok {V} (st : Store V) : Prop := (cacheRef st < next_ref st)%nat.

(** [r] names an allocated, empty Map that the Ref cell does not point to:
    the Map of a [clear()] whose effect has not run yet. *)
Definition spare {V} (r : MapRef) (st : Store V) : Prop :=
  (r < next_ref st)%nat /\ cacheRef st <> r /\ heap st r = [].

(** ** The weather service on top of the cache (services/weather-service.ts)

    [getCurrentWeather] and [refreshWeather] are the two callers of the
    cache.  The weather API is another service and does not touch the cache:
    a call of it is given by its answer, an error or a reading.  A
    [Location] is used through its [id] only. *)

Section WeatherService.

Variable V : Type.                 (* WeatherReading *)
Variable ApiError : Type.          (* NetworkError | HttpError | ... *)
Variable Location : Type.
Variable id : Location -> string.
Variable config : CacheConfigType.

(** [`weather:${location.id}`]. *)
Definition cacheKey (location : Location) : string :=
  ("weather:" ++ id location)%string.

(** [cache.get(cacheKey).pipe(Effect.catchTags({ CacheMissError: () =>
    Effect.succeed(null), CacheExpiredError: () => Effect.succeed(null) }))]:
    both failures of [get] become [null]. *)
Definition get_or_null (key : string) (now : Date) (st : Store V)
  : option V * Store V :=
  match get key now st with
  | (Success cached, st') => (Some cached, st')
  | (Failure _, st') => (None, st')
  end.

(** [cache.set(cacheKey, fresh).pipe(Effect.catchAll(() => Effect.void))]. *)
Definition set_or_void (key : string) (fresh : V) (now : Date) (st : Store V)
  : Store V :=
  snd (set config key fresh now st).

(** [getCurrentWeather(location)]: [now] is the clock reading of the [get],
    [now'] the one of the [set] after the API has answered. *)
Definition getCurrentWeather (api : Location -> ApiError + V)
    (location : Location) (now now' : Date) (st : Store V)
  : (ApiError + V) * Store V :=
  let (cached, st1) := get_or_null (cacheKey location) now st in
  match cached with
  | Some reading => (inr reading, st1)
  | None =>
      match api location with
      | inl err => (inl err, st1)
      | inr fresh => (inr fresh, set_or_void (cacheKey location) fresh now' st1)
      end
  end.

(** [refreshWeather(location)]. *)
Definition refreshWeather (api : Location -> ApiError + V)
    (location : Location) (now' : Date) (st : Store V)
  : (ApiError + V) * Store V :=
  match api location with
  | inl err => (inl err, st)
  | inr fresh => (inr fresh, set_or_void (cacheKey location) fresh now' st)
  end.

(** Histories of calls of the service. *)
Inductive ServiceCall :=
| ServeCurrent (api : Location -> ApiError + V) (location : Location) (now now' : Date)
| ServeRefresh (api : Location -> ApiError + V) (location : Location) (now' : Date).

Definition serve (c : ServiceCall) (st : Store V) : Store V :=
  match c with
  | ServeCurrent api location now now' =>
      snd (getCurrentWeather api location now now' st)
  | ServeRefresh api location now' => snd (refreshWeather api location now' st)
  end.

Definition serve_all (cs : list ServiceCall) (st : Store V) : Store V :=
  fold_left (fun st c => serve c st) cs st.

(** The calls of the cache that a call of the service makes on [st]. *)
Definition cache_calls (c : ServiceCall) (st : Store V) : list (Call V) :=
  match c with
  | ServeCurrent api location now now' =>
      CallGet (cacheKey location) now ::
      match fst (get_or_null (cacheKey location) now st), api location with
      | None, inr fresh => [CallSet (cacheKey location) fresh now']
      | _, _ => []
      end
  | ServeRefresh api location now' =>
      match api location with
      | inr fresh => [CallSet (cacheKey location) fresh now']
      | inl _ => []
      end
  end.

Fixpoint cache_history (cs : list ServiceCall) (st : Store V) : list (Call V) :=
  match cs with
  | [] => []
  | c :: cs' => cache_calls c st ++ cache_history cs' (serve c st)
  end.

End WeatherService.

(** ** Fibers: the generators of [get] and [set], one yield at a time

    [Effect.gen] runs a generator: at each [yield*] the generator hands an
    effect to the runtime, and once the runtime has run it the generator
    resumes with the result and runs on, without interruption, up to its
    next [yield*].  Between two yields of one fiber the runtime may run
    steps of other fibers. *)

(** [Yield op k]: the effect [op] is yielded; [k x st] is the rest of the
    generator when it resumes with the result [x] on the store [st], which
    the code run on resumption may read.  [Done ex]: the generator has
    ended. *)
Inductive Fiber (S A : Type) : Type :=
| Done (ex : Exit A)
| Yield (X : Type) (op : Effect S X) (k : X -> S -> Fiber S A).

Arguments Done {S A} ex.
Arguments Yield {S A X} op k.

(** One step of a fiber: the yielded effect, then the code up to the next
    yield.  An effect that fails ends the generator. *)
Definition step {S A} (f : Fiber S A) (st : S) : Fiber S A * S :=
  match f with
  | Done ex => (Done ex, st)
  | Yield op k =>
      match op st with
      | (Success x, st') => (k x st', st')
      | (Failure e, st') => (Done (Failure e), st')
      end
  end.

(** A fiber run to its end with no other fiber in between. *)
Fixpoint finish {S A} (f : Fiber S A) (st : S) : Exit A * S :=
  match f with
  | Done ex => (ex, st)
  | Yield op k =>
      match op st with
      | (Success x, st') => finish (k x st') st'
      | (Failure e, st') => (Failure e, st')
      end
  end.

(** Two fibers run under a schedule: [true] gives the next step to the
    first fiber, [false] to the second. *)
Fixpoint interleave {S A B} (schedule : list bool) (f : Fiber S A) (g : Fiber S B)
    (st : S) : Fiber S A * Fiber S B * S :=
  match schedule with
  | [] => (f, g, st)
  | true :: schedule' =>
      let (f', st') := step f st in interleave schedule' f' g st'
  | false :: schedule' =>
      let (g', st') := step g st in interleave schedule' f g' st'
  end.

Section Fibers.

Variable V : Type.
Variable config : CacheConfigType.

(** The generator of [get(key)]: [yield* Ref.get(cacheRef)], the lookup and
    the expiry test, then [yield* Effect.fail(...)] or
    [yield* Ref.update(...)]. *)
Definition get_fiber (key : string) (now : Date) : Fiber (Store V) V :=
  Yield (@Ref_get V) (fun state st =>
    match Map_get key (heap st state) with
    | None =>
        Yield (Effect_fail (CacheMissError key)) (fun (v : V) _ => Done (Success v))
    | Some entry =>
        if now >? expiresAt entry
        then
          Yield (Ref_update (fun s => mutate s (Map_delete key) ;; Effect_succeed s))
            (fun _ _ =>
               Yield (Effect_fail
                        (CacheExpiredError key (cachedAt entry) (expiresAt entry)))
                 (fun (v : V) _ => Done (Success v)))
        else
          Yield (Ref_update (fun s => mutate s (Map_bump key) ;; Effect_succeed s))
            (fun _ _ => Done (Success (value entry)))
    end).

(** The generator of [set(key, value)]: [yield* Ref.get(cacheRef)], the
    capacity test and the scan, then [yield* Ref.update(...delete...)] or
    [yield* Effect.fail(...)], then [yield* Ref.update(...set...)]. *)
Definition set_fiber (key : string) (v : V) (now : Date) : Fiber (Store V) unit :=
  if negb (enabled config) then Done (Success tt)
  else
    Yield (@Ref_get V) (fun state st =>
      let m := heap st state in
      let entry :=
        {| value := v; cachedAt := now;
           expiresAt := now + ttlSeconds config * 1000;
           accessCount := 0 |} in
      let store_entry :=
        Yield (Ref_update (fun s => mutate s (Map_set key entry) ;; Effect_succeed s))
          (fun _ _ => Done (Success tt)) in
      if (Z.of_nat (Map_size m) >=? maxSize config) && negb (Map_has key m)
      then
        let k := lruKey m in
        if truthy k
        then
          Yield (Ref_update (fun s =>
                   mutate s (match k with
                             | Some k' => Map_delete k'
                             | None => fun m' => m'
                             end) ;;
                   Effect_succeed s))
            (fun _ _ => store_entry)
        else
          Yield (Effect_fail
                   (CacheFullError (maxSize config) (Z.of_nat (Map_size m))))
            (fun (_ : unit) _ => Done (Success tt))
      else store_entry).

End Fibers.

(** ** Notions used in the further properties *)

(** No [clear()] is called in a history. *)
Definition no_clear {V} (cs : list (Call V)) : bool :=
  forallb (fun c => match c with CallClear => false | _ => true end) cs.

(** Every entry of [m] was built by a [set] of the history [cs]: its value
    and [cachedAt] are those of the call, and it expires [ttlSeconds]
    later. *)
Definition sourced {V} (config : CacheConfigType) (cs : list (Call V))
    (m : CacheState V) : Prop :=
  forall k e,
    In (k, e) m ->
    In (CallSet k (value e) (cachedAt e)) cs /\
    expiresAt e = cachedAt e + ttlSeconds config * 1000.

(** The number of [get(k)] of the history [cs], run from [st], that
    succeed. *)
Fixpoint hits {V} (config : CacheConfigType) (k : string) (cs : list (Call V))
    (st : Store V) : nat :=
  match cs with
  | [] => 0
  | c :: cs' =>
      (match c with
       | CallGet key now =>
           if String.eqb key k
           then match fst (get key now st) with Success _ => 1 | Failure _ => 0 end
           else 0
       | _ => 0
       end
       + hits config k cs' (exec config c st))%nat
  end.

(** ** Configurations of the examples *)

Definition config_two : CacheConfigType :=
  {| enabled := true; ttlSeconds := 100; maxSize := 2 |}.

Definition config_one : CacheConfigType :=
  {| enabled := true; ttlSeconds := 100; maxSize := 1 |}.

Definition config_zero : CacheConfigType :=
  {| enabled := true; ttlSeconds := 100; maxSize := 0 |}.

Definition config_off : CacheConfigType :=
  {| enabled := false; ttlSeconds := 100; maxSize := 2 |}.

(** The keys and access counts of a Map, in iteration order. *)
Definition counts {V} (m : CacheState V) : list (string * nat) :=
  map (fun ke => (fst ke, accessCount (snd ke))) m.

(** ** A weather service for the examples

    Locations are given by their id, readings are numbers and an error of
    the API is a message. *)

Definition loc_id (location : string) : string := location.

Definition api_up (reading : Z) : string -> string + Z := fun _ => inr reading.

Definition api_down : string -> string + Z := fun _ => inl "timeout".

(** The cache of capacity 2 after [set("a", 1)], [set("b", 2)], [get("a")]. *)
Definition cache_a_b : Store Z :=
  run config_two [CallSet "a" 1 0; CallSet "b" 2 0; CallGet "a" 0] (makeCache Z).

Unset Implicit Arguments.

(** ** Facts about Maps *)

Section MapFacts.

Variable V : Type.

Implicit Types (m : CacheState V) (e : CacheEntry V) (key k : string).

Lemma Map_has_true key m :
  Map_has key m = true <-> exists e, Map_get key m = Some e.
Proof.
  unfold Map_has. destruct (Map_get key m) as [e|].
  - split; [intros _; now exists e | reflexivity].
  - split; [discriminate | intros [e He]; discriminate].
Qed.

Lemma Map_has_false key m :
  Map_has key m = false <-> Map_get key m = None.
Proof.
  unfold Map_has. destruct (Map_get key m); split; congruence.
Qed.

Lemma Map_get_In key e m : Map_get key m = Some e -> In (key, e) m.
Proof.
  induction m as [|[k e'] m IH]; simpl; [discriminate|].
  destruct (String.eqb_spec k key) as [->|Hne].
  - intros [= ->]. now left.
  - intros H. right. now apply IH.
Qed.

Lemma Map_get_None_In key m :
  Map_get key m = None -> forall e, ~ In (key, e) m.
Proof.
  induction m as [|[k e'] m IH]; simpl; [tauto|].
  destruct (String.eqb_spec k key) as [->|Hne]; [discriminate|].
  intros H e [[= -> ->]|Hin]; [congruence | exact (IH H e Hin)].
Qed.

Lemma Map_get_set_same key e m : Map_get key (Map_set key e m) = Some e.
Proof.
  induction m as [|[k e'] m IH]; simpl.
  - now rewrite String.eqb_refl.
  - destruct (String.eqb k key) eqn:E; simpl; rewrite E; auto.
Qed.

Lemma Map_get_set_other key k e m :
  key <> k -> Map_get k (Map_set key e m) = Map_get k m.
Proof.
  intros Hne. induction m as [|[k0 e0] m IH]; simpl.
  - destruct (String.eqb_spec key k); [contradiction | reflexivity].
  - destruct (String.eqb_spec k0 key) as [->|H0]; simpl.
    + destruct (String.eqb_spec key k); [contradiction | reflexivity].
    + destruct (String.eqb_spec k0 k); auto.
Qed.

Lemma Map_set_has key e m :
  Map_has key m = true -> Map_size (Map_set key e m) = Map_size m.
Proof.
  unfold Map_has, Map_size. induction m as [|[k e'] m IH]; simpl; [discriminate|].
  destruct (String.eqb k key); simpl; auto.
Qed.

Lemma Map_set_new key e m :
  Map_has key m = false -> Map_set key e m = m ++ [(key, e)].
Proof.
  unfold Map_has. induction m as [|[k e'] m IH]; simpl; [reflexivity|].
  destruct (String.eqb k key); [discriminate|].
  intros H. now rewrite IH.
Qed.

Lemma Map_get_delete_same key m : Map_get key (Map_delete key m) = None.
Proof.
  unfold Map_delete. induction m as [|[k e] m IH]; simpl; [reflexivity|].
  destruct (String.eqb k key) eqn:E; simpl; [exact IH | now rewrite E].
Qed.

Lemma Map_get_delete_other key k m :
  key <> k -> Map_get k (Map_delete key m) = Map_get k m.
Proof.
  intros Hne. unfold Map_delete. induction m as [|[k0 e0] m IH]; simpl; [reflexivity|].
  destruct (String.eqb_spec k0 key) as [->|H0]; simpl.
  - destruct (String.eqb_spec key k); [contradiction | exact IH].
  - destruct (String.eqb_spec k0 k); auto.
Qed.

Lemma Map_delete_absent key m :
  Map_has key m = false -> Map_delete key m = m.
Proof.
  unfold Map_has, Map_delete. induction m as [|[k e] m IH]; simpl; [reflexivity|].
  destruct (String.eqb k key); [discriminate|]. simpl.
  intros H. now rewrite IH.
Qed.

Lemma Map_delete_size key m : (Map_size (Map_delete key m) <= Map_size m)%nat.
Proof. unfold Map_size, Map_delete. apply filter_length_le. Qed.

Lemma Map_delete_present key m :
  Map_has key m = true -> (Map_size (Map_delete key m) < Map_size m)%nat.
Proof.
  unfold Map_has, Map_size, Map_delete.
  induction m as [|[k e] m IH]; simpl; [discriminate|].
  destruct (String.eqb k key); simpl.
  - intros _. apply Nat.lt_succ_r. apply filter_length_le.
  - intros H. apply -> Nat.succ_lt_mono. auto.
Qed.

Lemma Map_get_bump_same key e m :
  Map_get key m = Some e -> Map_get key (Map_bump key m) = Some (bump e).
Proof.
  induction m as [|[k e'] m IH]; simpl; [discriminate|].
  destruct (String.eqb k key) eqn:E; simpl; rewrite E; [now intros [= ->] | auto].
Qed.

Lemma Map_get_bump_other key k m :
  key <> k -> Map_get k (Map_bump key m) = Map_get k m.
Proof.
  intros Hne. induction m as [|[k0 e0] m IH]; simpl; [reflexivity|].
  destruct (String.eqb_spec k0 key) as [->|H0]; simpl.
  - destruct (String.eqb_spec key k); [contradiction | reflexivity].
  - destruct (String.eqb_spec k0 k); auto.
Qed.

Lemma Map_get_bump_None key k m :
  Map_get k m = None -> Map_get k (Map_bump key m) = None.
Proof.
  intros H. destruct (String.eqb_spec key k) as [->|Hne].
  - induction m as [|[k0 e0] m IH]; simpl in *; [reflexivity|].
    destruct (String.eqb k0 k) eqn:E; [discriminate|]. simpl. rewrite E. auto.
  - now rewrite Map_get_bump_other.
Qed.

Lemma Map_bump_size key m : Map_size (Map_bump key m) = Map_size m.
Proof.
  unfold Map_size. induction m as [|[k e] m IH]; simpl; [reflexivity|].
  destruct (String.eqb k key); simpl; auto.
Qed.

Lemma Map_has_app key m1 m2 :
  Map_has key (m1 ++ m2) = Map_has key m1 || Map_has key m2.
Proof.
  unfold Map_has. induction m1 as [|[k e] m1 IH]; simpl; [reflexivity|].
  destruct (String.eqb k key); auto.
Qed.

Lemma Map_ok_app m1 m2 :
  Map_ok (m1 ++ m2) = true ->
  Map_ok m1 = true /\ Map_ok m2 = true /\
  forall key, Map_has key m1 = true -> Map_has key m2 = false.
Proof.
  induction m1 as [|[k e] m1 IH]; simpl.
  - intros H. repeat split; auto. unfold Map_has. simpl. discriminate.
  - rewrite Map_has_app. intros H.
    apply andb_prop in H as [Hk Hok].
    apply negb_true_iff, orb_false_iff in Hk as [Hk1 Hk2].
    destruct (IH Hok) as (H1 & H2 & H3).
    rewrite Hk1, H1. repeat split; auto.
    intros key. unfold Map_has at 1. simpl.
    destruct (String.eqb_spec k key) as [->|Hne]; [auto|].
    intros H. apply H3. exact H.
Qed.

Lemma Map_ok_NoDup m : Map_ok m = true <-> NoDup (map fst m).
Proof.
  assert (Hin : forall key m, Map_has key m = true <-> In key (map fst m)).
  { intros key m0. unfold Map_has. induction m0 as [|[k e] m0 IH]; simpl.
    - split; [discriminate | tauto].
    - destruct (String.eqb_spec k key) as [->|Hne]; [tauto|].
      rewrite IH. split; [tauto | intros [?|?]; [contradiction | assumption]]. }
  induction m as [|[k e] m IH]; simpl.
  - split; [constructor | reflexivity].
  - rewrite andb_true_iff, negb_true_iff, IH. split.
    + intros [Hk Hnd]. constructor; [|exact Hnd].
      rewrite <- Hin. congruence.
    + intros H. inversion H as [|? ? Hk Hnd]; subst. split; [|exact Hnd].
      destruct (Map_has k m) eqn:E; [|reflexivity].
      apply Hin in E. contradiction.
Qed.

(** Deleting the key of an entry of a Map removes that entry and nothing
    else. *)
Lemma Map_delete_middle l1 k e l2 :
  Map_ok (l1 ++ (k, e) :: l2) = true ->
  Map_delete k (l1 ++ (k, e) :: l2) = l1 ++ l2.
Proof.
  intros Hok. destruct (Map_ok_app _ _ Hok) as (_ & H2 & H3).
  simpl in H2. apply andb_prop in H2 as [Hk2 _]. apply negb_true_iff in Hk2.
  assert (Hk1 : Map_has k l1 = false).
  { destruct (Map_has k l1) eqn:E; [|reflexivity].
    specialize (H3 k E). unfold Map_has in H3. simpl in H3.
    now rewrite String.eqb_refl in H3. }
  unfold Map_delete. rewrite filter_app. simpl. rewrite String.eqb_refl. simpl.
  fold (Map_delete k l1) (Map_delete k l2).
  now rewrite !Map_delete_absent.
Qed.

(** *** The eviction scan *)

Lemma lru_scan_last m ke : lru_scan (m ++ [ke]) = scan_step (lru_scan m) ke.
Proof. unfold lru_scan. now rewrite fold_left_app. Qed.

Lemma lru_scan_nil : lru_scan (@nil (string * CacheEntry V)) = (None, None).
Proof. reflexivity. Qed.

(** On a Map that is not empty the scan ends on the first entry with the
    least [accessCount]. *)
Lemma lru_scan_first_least m :
  m <> [] ->
  exists l1 k e l2,
    first_least m l1 k e l2 /\ lru_scan m = (Some k, Some (accessCount e)).
Proof.
  induction m as [|[kx ex] m IH] using rev_ind; [congruence|]. intros _.
  rewrite lru_scan_last. destruct m as [|p m'] eqn:Em.
  - exists [], kx, ex, []. split; [|reflexivity].
    repeat split; simpl; tauto.
  - rewrite <- Em in *.
    destruct IH as (l1 & k & e & l2 & (Hm & Hl1 & Hl2) & Hscan);
      [rewrite Em; discriminate|].
    rewrite Hscan. unfold scan_step. simpl.
    destruct (Nat.ltb_spec (accessCount ex) (accessCount e)) as [Hlt|Hge].
    + exists m, kx, ex, []. split; [|reflexivity].
      split; [reflexivity|]. split; [|simpl; tauto].
      intros k' e' Hin. rewrite Hm in Hin.
      apply in_app_or in Hin as [Hin|[[= <- <-]|Hin]].
      * specialize (Hl1 _ _ Hin). lia.
      * exact Hlt.
      * specialize (Hl2 _ _ Hin). lia.
    + exists l1, k, e, (l2 ++ [(kx, ex)]). split; [|reflexivity].
      split; [|split].
      * rewrite Hm, <- app_assoc. reflexivity.
      * exact Hl1.
      * intros k' e' Hin. apply in_app_or in Hin as [Hin|[[= <- <-]|[]]];
          [exact (Hl2 _ _ Hin) | exact Hge].
Qed.

Lemma lruKey_nil : lruKey (@nil (string * CacheEntry V)) = None.
Proof. reflexivity. Qed.

Lemma lruKey_first_least m :
  m <> [] -> exists l1 k e l2, first_least m l1 k e l2 /\ lruKey m = Some k.
Proof.
  intros H. destruct (lru_scan_first_least m H) as (l1 & k & e & l2 & Hfl & Hs).
  exists l1, k, e, l2. split; [exact Hfl|]. unfold lruKey. now rewrite Hs.
Qed.

Lemma first_least_has m l1 k e l2 :
  first_least m l1 k e l2 -> Map_has k m = true.
Proof.
  intros (-> & _ & _). rewrite Map_has_app. unfold Map_has at 2. simpl.
  rewrite String.eqb_refl. apply orb_true_r.
Qed.

End MapFacts.

(** ** Facts about the operations *)

Section CacheFacts.

Variable V : Type.
Variable config : CacheConfigType.

Implicit Types (st : Store V) (m : CacheState V) (e : CacheEntry V).
Implicit Types (key k : string) (v : V) (now : Date).

Lemma current_with_current (f : CacheState V -> CacheState V) st :
  current (with_current f st) = f (current st).
Proof. unfold current, with_current. simpl. now rewrite Nat.eqb_refl. Qed.

Lemma Ref_update_mutate (f : CacheState V -> CacheState V) st :
  Ref_update (fun s => mutate s f ;; Effect_succeed s) st
  = (Success tt, with_current f st).
Proof. reflexivity. Qed.

(** Runs a generator up to the Map it reads through the Ref cell. *)
Ltac enter_gen :=
  unfold bind at 1 2, Ref_get, read; cbn [fst snd];
  match goal with
  | |- context [heap ?st (cacheRef ?st)] =>
      change (heap st (cacheRef st)) with (current st)
  end.

(** *** The three ways [get] ends *)

Lemma get_miss key now st :
  Map_get key (current st) = None ->
  get key now st = (Failure (CacheMissError key), st).
Proof.
  intros H. unfold get. enter_gen. now rewrite H.
Qed.

Lemma get_expired key now st e :
  Map_get key (current st) = Some e ->
  expiresAt e < now ->
  get key now st
  = (Failure (CacheExpiredError key (cachedAt e) (expiresAt e)),
     with_current (Map_delete key) st).
Proof.
  intros H Hlt. unfold get. enter_gen. rewrite H.
  apply Z.gtb_lt in Hlt. rewrite Hlt.
  unfold bind at 1. now rewrite Ref_update_mutate.
Qed.

Lemma get_live key now st e :
  Map_get key (current st) = Some e ->
  now <= expiresAt e ->
  get key now st = (Success (value e), with_current (Map_bump key) st).
Proof.
  intros H Hle. unfold get. enter_gen. rewrite H.
  assert (Hgt : (now >? expiresAt e) = false).
  { rewrite Z.gtb_ltb. apply Z.ltb_ge. exact Hle. }
  rewrite Hgt. unfold bind at 1. now rewrite Ref_update_mutate.
Qed.

(** *** The four ways [set] ends *)

Lemma set_disabled key v now st :
  enabled config = false -> set config key v now st = (Success tt, st).
Proof. intros H. unfold set. now rewrite H. Qed.

Lemma set_room key v now st :
  enabled config = true ->
  must_evict config key (current st) = false ->
  set config key v now st
  = (Success tt, with_current (Map_set key (new_entry config v now)) st).
Proof.
  intros Hen H. unfold set. rewrite Hen. cbn [negb]. enter_gen.
  unfold must_evict in H. rewrite H.
  unfold bind at 1. unfold Effect_succeed at 1.
  now rewrite Ref_update_mutate.
Qed.

Lemma set_evicts key v now st k :
  enabled config = true ->
  must_evict config key (current st) = true ->
  lruKey (current st) = Some k ->
  k <> "" ->
  set config key v now st
  = (Success tt,
     with_current (Map_set key (new_entry config v now))
       (with_current (Map_delete k) st)).
Proof.
  intros Hen H Hk Hne. unfold set. rewrite Hen. cbn [negb]. enter_gen.
  unfold must_evict in H. rewrite H.
  unfold bind at 1. unfold evict. rewrite Hk. cbv zeta.
  apply String.eqb_neq in Hne. unfold truthy. rewrite Hne. reflexivity.
Qed.

Lemma set_full key v now st :
  enabled config = true ->
  must_evict config key (current st) = true ->
  truthy (lruKey (current st)) = false ->
  set config key v now st
  = (Failure (CacheFullError (maxSize config) (Z.of_nat (Map_size (current st)))), st).
Proof.
  intros Hen H Hk. unfold set. rewrite Hen. cbn [negb]. enter_gen.
  unfold must_evict in H. rewrite H.
  unfold bind at 1. unfold evict. cbv zeta. now rewrite Hk.
Qed.

(** Every run of [set] is one of these four. *)
Lemma set_cases key v now st :
  (enabled config = false /\ set config key v now st = (Success tt, st))
  \/ (enabled config = true /\ must_evict config key (current st) = false /\
      set config key v now st
      = (Success tt, with_current (Map_set key (new_entry config v now)) st))
  \/ (exists k,
        enabled config = true /\ must_evict config key (current st) = true /\
        lruKey (current st) = Some k /\ k <> "" /\
        set config key v now st
        = (Success tt,
           with_current (Map_set key (new_entry config v now))
             (with_current (Map_delete k) st)))
  \/ (enabled config = true /\ must_evict config key (current st) = true /\
      truthy (lruKey (current st)) = false /\
      set config key v now st
      = (Failure (CacheFullError (maxSize config)
                    (Z.of_nat (Map_size (current st)))), st)).
Proof.
  destruct (enabled config) eqn:Hen.
  - destruct (must_evict config key (current st)) eqn:Hev.
    + destruct (truthy (lruKey (current st))) eqn:Htr.
      * right; right; left.
        destruct (lruKey (current st)) as [k|] eqn:Hk; [|discriminate].
        exists k. simpl in Htr. apply negb_true_iff, String.eqb_neq in Htr.
        repeat split; auto. now apply set_evicts.
      * right; right; right. repeat split; auto. now apply set_full.
    + right; left. repeat split; auto. now apply set_room.
  - left. split; auto. now apply set_disabled.
Qed.

(** Every run of [get] is one of these three. *)
Lemma get_cases key now st :
  (Map_get key (current st) = None /\
   get key now st = (Failure (CacheMissError key), st))
  \/ (exists e,
        Map_get key (current st) = Some e /\ expiresAt e < now /\
        get key now st
        = (Failure (CacheExpiredError key (cachedAt e) (expiresAt e)),
           with_current (Map_delete key) st))
  \/ (exists e,
        Map_get key (current st) = Some e /\ now <= expiresAt e /\
        get key now st = (Success (value e), with_current (Map_bump key) st)).
Proof.
  destruct (Map_get key (current st)) as [e|] eqn:H.
  - destruct (Z_lt_le_dec (expiresAt e) now) as [Hlt|Hle].
    + right; left. exists e. repeat split; auto. now apply get_expired.
    + right; right. exists e. repeat split; auto. now apply get_live.
  - left. split; auto. now apply get_miss.
Qed.

Lemma size_run st : size st = (Success (Map_size (current st)), st).
Proof. reflexivity. Qed.

Lemma clear_run st :
  exists st', snd (fst (clear st) (snd (clear st))) = st' /\
              fst (fst (clear st) (snd (clear st))) = Success tt /\
              current st' = [].
Proof.
  eexists. split; [reflexivity|]. split; [reflexivity|].
  unfold current, clear, new_Map, Ref_set. simpl. now rewrite Nat.eqb_refl.
Qed.

Lemma exec_clear st : current (exec config CallClear st) = [].
Proof.
  unfold exec, current, clear, new_Map, Ref_set. simpl. now rewrite Nat.eqb_refl.
Qed.

(** *** The eviction victim *)

Lemma lruKey_has m k : lruKey m = Some k -> Map_has k m = true.
Proof.
  intros H. destruct m as [|p m'] eqn:Em; [discriminate|]. rewrite <- Em in *.
  destruct (lruKey_first_least V m) as (l1 & k0 & e & l2 & Hfl & Hk);
    [rewrite Em; discriminate|].
  rewrite H in Hk. injection Hk as <-. exact (first_least_has _ _ _ _ _ _ Hfl).
Qed.

Lemma must_evict_nonempty key m :
  1 <= maxSize config -> must_evict config key m = true -> m <> [].
Proof.
  unfold must_evict. intros Hmax H ->.
  apply andb_prop in H as [H _]. simpl in H.
  apply Z.geb_le in H. lia.
Qed.

Lemma must_evict_absent key m :
  must_evict config key m = true -> Map_has key m = false.
Proof.
  unfold must_evict. intros H. apply andb_prop in H as [_ H].
  now apply negb_true_iff in H.
Qed.

(** On a Map that is not empty [set] fails exactly when the scan ends on the
    empty key. *)
Lemma truthy_lruKey m :
  m <> [] -> truthy (lruKey m) = false -> lruKey m = Some "".
Proof.
  intros Hm H. destruct (lruKey_first_least V m Hm) as (l1 & k & e & l2 & _ & Hk).
  rewrite Hk in *. simpl in H. apply negb_false_iff, String.eqb_eq in H.
  now subst.
Qed.

Lemma set_full_nonempty key v now st a b st' :
  current st <> [] ->
  set config key v now st = (Failure (CacheFullError a b), st') ->
  must_evict config key (current st) = true /\ lruKey (current st) = Some "".
Proof.
  intros Hne H.
  destruct (set_cases key v now st)
    as [[_ H1]|[(_ & _ & H1)|[(k & _ & _ & _ & _ & H1)|(_ & Hev & Htr & _)]]];
    try (rewrite H1 in H; discriminate).
  split; [exact Hev|]. now apply truthy_lruKey.
Qed.

(** When the cache is enabled, holds at least one entry whenever it is full,
    and the scan, if it has to run, does not end on the empty key, [set]
    stores its entry. *)
Lemma set_stores key v now st :
  enabled config = true ->
  1 <= maxSize config ->
  (must_evict config key (current st) = true -> lruKey (current st) <> Some "") ->
  exists st',
    set config key v now st = (Success tt, st') /\
    Map_get key (current st') = Some (new_entry config v now).
Proof.
  intros Hen Hmax Hk.
  destruct (set_cases key v now st)
    as [[H _]|[(_ & _ & H)|[(k & _ & _ & _ & _ & H)|(_ & Hev & Htr & _)]]].
  - congruence.
  - eexists. split; [exact H|].
    rewrite current_with_current. apply Map_get_set_same.
  - eexists. split; [exact H|].
    rewrite current_with_current. apply Map_get_set_same.
  - exfalso. apply (Hk Hev). apply truthy_lruKey; [|exact Htr].
    eapply must_evict_nonempty; eassumption.
Qed.

(** *** The bound on the number of entries *)

Lemma Map_has_delete_absent key k m :
  Map_has key m = false -> Map_has key (Map_delete k m) = false.
Proof.
  rewrite !Map_has_false. intros H.
  destruct (String.eqb_spec k key) as [->|Hne].
  - apply Map_get_delete_same.
  - now rewrite Map_get_delete_other.
Qed.

Lemma Map_set_size_new key e m :
  Map_has key m = false -> Map_size (Map_set key e m) = S (Map_size m).
Proof.
  intros H. rewrite Map_set_new by exact H. unfold Map_size.
  rewrite length_app. simpl. lia.
Qed.

Lemma set_keeps_bound key v now st :
  Z.of_nat (Map_size (current st)) <= maxSize config ->
  Z.of_nat (Map_size (current (snd (set config key v now st)))) <= maxSize config.
Proof.
  intros Hb.
  destruct (set_cases key v now st)
    as [[_ H]|[(_ & Hev & H)|[(k & _ & Hev & Hk & _ & H)|(_ & _ & _ & H)]]];
    rewrite H; cbn [snd]; auto.
  - rewrite current_with_current.
    destruct (Map_has key (current st)) eqn:Hhas.
    + now rewrite Map_set_has.
    + rewrite Map_set_size_new by exact Hhas.
      unfold must_evict in Hev. rewrite Hhas, andb_true_r in Hev.
      rewrite Z.geb_leb in Hev. apply Z.leb_gt in Hev. lia.
  - rewrite !current_with_current.
    rewrite Map_set_size_new
      by (apply Map_has_delete_absent; eapply must_evict_absent; exact Hev).
    pose proof (Map_delete_present V _ _ (lruKey_has _ _ Hk)). lia.
Qed.

(** *** Filling an empty cache *)

Lemma set_each_room kvs : forall st,
  enabled config = true ->
  NoDup (map (fun kv => fst (fst kv)) kvs) ->
  (forall kv, In kv kvs -> Map_has (fst (fst kv)) (current st) = false) ->
  Z.of_nat (Map_size (current st) + List.length kvs) <= maxSize config ->
  exists st',
    set_each config kvs st = (Success tt, st') /\
    current st'
    = current st
      ++ map (fun kv => (fst (fst kv), new_entry config (snd (fst kv)) (snd kv))) kvs.
Proof.
  induction kvs as [|[[k v] now] kvs IH]; intros st Hen Hnd Habs Hsz; simpl.
  - exists st. now rewrite app_nil_r.
  - inversion Hnd as [|? ? Hk Hnd']; subst.
    assert (Hhas : Map_has k (current st) = false)
      by exact (Habs (k, v, now) (or_introl eq_refl)).
    assert (Hev : must_evict config k (current st) = false).
    { unfold must_evict. rewrite Hhas, andb_true_r, Z.geb_leb.
      apply Z.leb_gt. simpl in Hsz. lia. }
    unfold bind. rewrite (set_room k v now st Hen Hev).
    set (st1 := with_current (Map_set k (new_entry config v now)) st).
    assert (Hcur : current st1 = current st ++ [(k, new_entry config v now)]).
    { unfold st1. rewrite current_with_current. now apply Map_set_new. }
    destruct (IH st1 Hen Hnd') as (st' & Hrun & Hfin).
    + intros kv Hin. rewrite Hcur, Map_has_app, (Habs kv (or_intror Hin)).
      unfold Map_has. simpl.
      destruct (String.eqb_spec k (fst (fst kv))) as [->|Hne]; [|reflexivity].
      exfalso. apply Hk. apply in_map_iff. now exists kv.
    + rewrite Hcur. unfold Map_size in *. rewrite length_app. simpl in *. lia.
    + exists st'. split; [exact Hrun|].
      rewrite Hfin, Hcur, <- app_assoc. reflexivity.
Qed.

(** *** Eviction *)

Lemma set_evicts_first_least key v now st :
  enabled config = true ->
  Map_ok (current st) = true ->
  current st <> [] ->
  must_evict config key (current st) = true ->
  lruKey (current st) <> Some "" ->
  exists l1 k e l2 st',
    first_least (current st) l1 k e l2 /\
    set config key v now st = (Success tt, st') /\
    current st' = l1 ++ l2 ++ [(key, new_entry config v now)].
Proof.
  intros Hen Hok Hne Hev Hk.
  destruct (lruKey_first_least V _ Hne) as (l1 & k & e & l2 & Hfl & Hlru).
  assert (Hk' : k <> "") by (intros ->; contradiction).
  exists l1, k, e, l2. eexists. split; [exact Hfl|].
  split; [exact (set_evicts key v now st k Hen Hev Hlru Hk')|].
  rewrite !current_with_current.
  pose proof (must_evict_absent _ _ Hev) as Habs.
  rewrite Map_set_new by (apply Map_has_delete_absent; exact Habs).
  destruct Hfl as (Hm & _ & _). rewrite Hm in Hok |- *.
  rewrite (Map_delete_middle V _ _ _ _ Hok). now rewrite <- app_assoc.
Qed.

(** *** Histories *)

Lemma exec_absent k c st :
  (forall v now, c <> CallSet k v now) ->
  Map_has k (current st) = false ->
  Map_has k (current (exec config c st)) = false.
Proof.
  intros Hc Habs. destruct c as [key now|key v now| |].
  - cbn [exec].
    destruct (get_cases key now st) as [[_ H]|[(e & _ & _ & H)|(e & _ & _ & H)]];
      rewrite H; cbn [snd]; auto; rewrite current_with_current.
    + now apply Map_has_delete_absent.
    + apply Map_has_false, Map_get_bump_None. now apply Map_has_false.
  - cbn [exec].
    assert (Hne : key <> k) by (intros ->; exact (Hc v now eq_refl)).
    assert (Hset : forall e m, Map_has k m = false ->
                               Map_has k (Map_set key e m) = false).
    { intros e m. rewrite !Map_has_false. now rewrite Map_get_set_other. }
    destruct (set_cases key v now st)
      as [[_ H]|[(_ & _ & H)|[(k0 & _ & _ & _ & _ & H)|(_ & _ & _ & H)]]];
      rewrite H; cbn [snd]; auto; rewrite !current_with_current; apply Hset; auto.
    now apply Map_has_delete_absent.
  - now rewrite exec_clear.
  - exact Habs.
Qed.

Lemma run_absent k cs : forall st,
  ~ In k (keys_set cs) ->
  Map_has k (current st) = false ->
  Map_has k (current (run config cs st)) = false.
Proof.
  unfold run. induction cs as [|c cs IH]; intros st Hk Habs; simpl; [exact Habs|].
  apply IH.
  - intros Hin. apply Hk. destruct c; simpl; auto.
  - apply exec_absent; [|exact Habs].
    intros v now ->. apply Hk. simpl. now left.
Qed.

Lemma exec_disabled c st :
  enabled config = false -> current st = [] -> current (exec config c st) = [].
Proof.
  intros Hen Hcur. destruct c as [key now|key v now| |].
  - cbn [exec]. rewrite get_miss by (rewrite Hcur; reflexivity). exact Hcur.
  - cbn [exec]. rewrite set_disabled by exact Hen. exact Hcur.
  - apply exec_clear.
  - exact Hcur.
Qed.

Lemma run_disabled cs : forall st,
  enabled config = false -> current st = [] -> current (run config cs st) = [].
Proof.
  unfold run. induction cs as [|c cs IH]; intros st Hen Hcur; simpl; [exact Hcur|].
  apply IH; [exact Hen|]. now apply exec_disabled.
Qed.

(** *** The Map of a [clear()] that has not run yet *)

Lemma with_current_ok (f : CacheState V -> CacheState V) st :
  Store_ok st -> Store_ok (with_current f st).
Proof. exact (fun H => H). Qed.

Lemma with_current_spare (f : CacheState V -> CacheState V) r st :
  spare r st -> spare r (with_current f st).
Proof.
  intros (Hlt & Hne & Hr). repeat split; try assumption.
  unfold with_current. cbn [heap].
  destruct (Nat.eqb_spec r (cacheRef st)) as [->|_]; [contradiction | exact Hr].
Qed.

(** [get] and [set] change nothing but the Map of the Ref cell. *)
Lemma get_store key now st :
  snd (get key now st) = st \/
  exists f, snd (get key now st) = with_current f st.
Proof.
  destruct (get_cases key now st) as [[_ H]|[(e & _ & _ & H)|(e & _ & _ & H)]];
    rewrite H; cbn [snd]; eauto.
Qed.

Lemma set_store key v now st :
  snd (set config key v now st) = st \/
  (exists f, snd (set config key v now st) = with_current f st) \/
  exists f g, snd (set config key v now st) = with_current f (with_current g st).
Proof.
  destruct (set_cases key v now st)
    as [[_ H]|[(_ & _ & H)|[(k & _ & _ & _ & _ & H)|(_ & _ & _ & H)]]];
    rewrite H; cbn [snd]; eauto.
Qed.

Lemma exec_ok c st : Store_ok st -> Store_ok (exec config c st).
Proof.
  intros Hok. destruct c as [key now|key v now| |]; cbn [exec].
  - destruct (get_store key now st) as [->|[f ->]]; auto using with_current_ok.
  - destruct (set_store key v now st) as [->|[[f ->]|(f & g & ->)]];
      auto using with_current_ok.
  - unfold Store_ok, clear, new_Map, Ref_set. simpl. lia.
  - exact Hok.
Qed.

Lemma exec_spare r c st : Store_ok st -> spare r st -> spare r (exec config c st).
Proof.
  intros Hok Hsp. destruct c as [key now|key v now| |]; cbn [exec].
  - destruct (get_store key now st) as [->|[f ->]]; auto using with_current_spare.
  - destruct (set_store key v now st) as [->|[[f ->]|(f & g & ->)]];
      auto using with_current_spare.
  - destruct Hsp as (Hlt & Hne & Hr).
    unfold spare, clear, new_Map, Ref_set. simpl.
    repeat split; [lia | lia |].
    destruct (Nat.eqb_spec r (next_ref st)); [lia | exact Hr].
  - exact Hsp.
Qed.

Lemma run_spare r cs : forall st,
  Store_ok st -> spare r st -> spare r (run config cs st).
Proof.
  unfold run. induction cs as [|c cs IH]; intros st Hok Hsp; simpl; [exact Hsp|].
  apply IH; [now apply exec_ok | now apply exec_spare].
Qed.

Lemma run_ok cs : forall st, Store_ok st -> Store_ok (run config cs st).
Proof.
  unfold run. induction cs as [|c cs IH]; intros st Hok; simpl; [exact Hok|].
  apply IH. now apply exec_ok.
Qed.

(** The first run of the effect of a [clear()] call empties the cache,
    whatever calls were made between the call and the run. *)
Lemma clear_first_run cs st :
  Store_ok st ->
  current (snd (fst (clear st) (run config cs (snd (clear st))))) = [].
Proof.
  intros Hok.
  assert (Hsp : spare (next_ref st) (run config cs (snd (clear st)))).
  { apply run_spare.
    - unfold Store_ok, clear, new_Map in *. simpl. lia.
    - unfold Store_ok, spare, clear, new_Map in *. simpl.
      rewrite Nat.eqb_refl. repeat split; lia. }
  destruct Hsp as (_ & _ & Hr). exact Hr.
Qed.

End CacheFacts.

(** ** The properties of the cache *)

Section CacheProperties.

Variable V : Type.
Variable config : CacheConfigType.

Implicit Types (st : Store V) (m : CacheState V) (e : CacheEntry V).
Implicit Types (key k : string) (v : V) (now : Date).

(** C2, as amended.  With the cache enabled, [ttlSeconds > 0] and a capacity
    of at least one entry, and provided the eviction scan, when [set] has to
    evict, does not end on the empty key: [set(k, v)] succeeds from any state
    and a [get(k)] at the same clock reading succeeds and returns [v]. *)
Theorem set_then_get key v now st :
  enabled config = true ->
  0 < ttlSeconds config ->
  1 <= maxSize config ->
  (must_evict config key (current st) = true -> lruKey (current st) <> Some "") ->
  exists st1 st2,
    set config key v now st = (Success tt, st1) /\
    get key now st1 = (Success v, st2).
Proof.
  intros Hen Httl Hmax Hk.
  destruct (set_stores V config key v now st Hen Hmax Hk) as (st1 & Hset & Hget).
  exists st1. eexists. split; [exact Hset|].
  apply (get_live V key now st1 _ Hget). simpl. lia.
Qed.

(** C4, as amended.  With the cache enabled and a capacity of at least one
    entry, and provided the eviction scan, when [set] has to evict, does not
    end on the empty key: [set(k, v)] at [t0] succeeds, a [get(k)] at any
    reading past [t0 + ttlSeconds] (a positive [eps] milliseconds past it)
    then fails with [CacheExpired(k, t0, t0 + ttlSeconds)] and deletes the
    entry of [k], and every [get(k)] right after that fails with
    [CacheMiss(k)]. *)
Theorem get_after_ttl key v t0 eps st :
  enabled config = true ->
  1 <= maxSize config ->
  (must_evict config key (current st) = true -> lruKey (current st) <> Some "") ->
  0 < eps ->
  exists st1 st2,
    set config key v t0 st = (Success tt, st1) /\
    get key (t0 + ttlSeconds config * 1000 + eps) st1
    = (Failure (CacheExpiredError key t0 (t0 + ttlSeconds config * 1000)), st2) /\
    current st2 = Map_delete key (current st1) /\
    Map_has key (current st2) = false /\
    forall now, get key now st2 = (Failure (CacheMissError key), st2).
Proof.
  intros Hen Hmax Hk Heps.
  destruct (set_stores V config key v t0 st Hen Hmax Hk) as (st1 & Hset & Hget).
  exists st1, (with_current (Map_delete key) st1).
  assert (Hgone : Map_get key (current (with_current (Map_delete key) st1)) = None).
  { rewrite current_with_current. apply Map_get_delete_same. }
  split; [exact Hset|]. split; [|split; [|split]].
  - apply (get_expired V key _ st1 _ Hget). simpl. lia.
  - apply current_with_current.
  - now apply Map_has_false.
  - intros now. now apply get_miss.
Qed.

(** C3, as amended.  (1) A [set] that starts with at most [maxSize] entries
    leaves at most [maxSize] entries, however it ends.  (2) With the cache
    enabled and [maxSize = N], setting [N] distinct keys on the new cache
    succeeds and [size()] is then [N].  (3) With the cache enabled, [N >= 1]
    entries in a cache of [maxSize = N] and a key that is not stored, [set]
    deletes exactly the first entry with the least [accessCount], keeps the
    others in order, appends the new entry and leaves [size()] at [N],
    provided the key of the deleted entry is not the empty string. *)
Theorem set_within_capacity key v now st :
  (Z.of_nat (Map_size (current st)) <= maxSize config ->
   Z.of_nat (Map_size (current (snd (set config key v now st)))) <= maxSize config)
  /\ (enabled config = true ->
      forall kvs,
        NoDup (map (fun kv => fst (fst kv)) kvs) ->
        Z.of_nat (List.length kvs) = maxSize config ->
        exists st',
          set_each config kvs (makeCache V) = (Success tt, st') /\
          size st' = (Success (List.length kvs), st'))
  /\ (enabled config = true ->
      1 <= maxSize config ->
      Map_ok (current st) = true ->
      Z.of_nat (Map_size (current st)) = maxSize config ->
      Map_has key (current st) = false ->
      lruKey (current st) <> Some "" ->
      exists l1 k e l2 st',
        first_least (current st) l1 k e l2 /\
        set config key v now st = (Success tt, st') /\
        current st' = l1 ++ l2 ++ [(key, new_entry config v now)] /\
        size st' = (Success (Map_size (current st)), st')).
Proof.
  split; [apply set_keeps_bound|]. split.
  - intros Hen kvs Hnd Hlen.
    destruct (set_each_room V config kvs (makeCache V) Hen Hnd) as (st' & Hrun & Hcur).
    + intros kv _. reflexivity.
    + simpl. lia.
    + exists st'. split; [exact Hrun|].
      rewrite size_run, Hcur. unfold Map_size. simpl. now rewrite length_map.
  - intros Hen Hmax Hok Hsz Habs Hk.
    assert (Hev : must_evict config key (current st) = true).
    { unfold must_evict. rewrite Habs, andb_true_r. apply Z.geb_le. lia. }
    assert (Hne : current st <> []).
    { eapply must_evict_nonempty; eassumption. }
    destruct (set_evicts_first_least V config key v now st Hen Hok Hne Hev Hk)
      as (l1 & k & e & l2 & st' & Hfl & Hset & Hcur).
    exists l1, k, e, l2, st'. repeat split; try assumption; try apply Hfl.
    rewrite size_run, Hcur. destruct Hfl as (-> & _ & _).
    unfold Map_size. rewrite !length_app. simpl. do 2 f_equal. lia.
Qed.

(** C7.  With [enabled = false], [set(k, v)] succeeds and leaves the state
    as it is; a [get(k)] on a state without [k] then fails with
    [CacheMiss(k)]; and after any history of calls on a new cache, [set(k, v)]
    followed by [get(k)] ends that way. *)
Theorem set_disabled_noop key v now st :
  enabled config = false ->
  set config key v now st = (Success tt, st)
  /\ (Map_has key (current st) = false ->
      forall now', get key now' st = (Failure (CacheMissError key), st))
  /\ (forall cs now',
        let st' := run config cs (makeCache V) in
        set config key v now st' = (Success tt, st') /\
        get key now' st' = (Failure (CacheMissError key), st')).
Proof.
  intros Hen. split; [now apply set_disabled|]. split.
  - intros Habs now'. apply get_miss. now apply Map_has_false.
  - intros cs now' st'. split; [now apply set_disabled|].
    apply get_miss. unfold st'. now rewrite run_disabled.
Qed.

(** C8.  A [get(k)] that finds an entry which has not expired succeeds with
    the stored value, as it is, and leaves the entry with its [accessCount]
    one higher and nothing else changed; a [set(k, v)] on a key that is
    stored leaves [size()] as it was and the entry of [k] with
    [accessCount = 0].  The second part holds in every state when the cache
    is enabled, and in every state a history of calls on a new cache leads
    to. *)
Theorem get_counts_set_resets key st :
  (forall now e,
     Map_get key (current st) = Some e ->
     now <= expiresAt e ->
     exists st',
       get key now st = (Success (value e), st') /\
       Map_get key (current st') = Some (bump e) /\
       accessCount (bump e) = S (accessCount e) /\
       (forall k, k <> key -> Map_get k (current st') = Map_get k (current st)) /\
       fst (size st') = fst (size st))
  /\ (forall v now,
        enabled config = true \/ (exists cs, st = run config cs (makeCache V)) ->
        Map_has key (current st) = true ->
        exists st' e',
          set config key v now st = (Success tt, st') /\
          fst (size st') = fst (size st) /\
          Map_get key (current st') = Some e' /\
          accessCount e' = 0%nat /\ value e' = v).
Proof.
  split.
  - intros now e Hget Hlive. exists (with_current (Map_bump key) st).
    split; [now apply get_live|]. rewrite !size_run, current_with_current.
    split; [now apply Map_get_bump_same|]. split; [reflexivity|]. split.
    + intros k Hne. apply Map_get_bump_other. congruence.
    + cbn [fst]. now rewrite Map_bump_size.
  - intros v now Hreach Hhas.
    assert (Hen : enabled config = true).
    { destruct (enabled config) eqn:Hen; [reflexivity|].
      destruct Hreach as [Hen'|[cs ->]]; [discriminate|].
      rewrite run_disabled in Hhas by auto. discriminate. }
    assert (Hev : must_evict config key (current st) = false).
    { unfold must_evict. rewrite Hhas. apply andb_false_r. }
    exists (with_current (Map_set key (new_entry config v now)) st),
           (new_entry config v now).
    split; [now apply set_room|]. rewrite !size_run, current_with_current.
    split; [cbn [fst]; now rewrite Map_set_has|].
    split; [apply Map_get_set_same|]. split; reflexivity.
Qed.

(** C9.  On a cache whose history has no [set] of [k], or whose [set] is
    disabled, [get(k)] fails with [CacheMiss(k)].  A call of [clear()] that
    is run never fails and leaves an empty Map in the Ref cell, whatever was
    there: [size()] is 0 right after, and [get(k)] fails with [CacheMiss(k)]
    for every key until that key is set again. *)
Theorem get_misses_unset_and_cleared key now :
  (forall cs,
     enabled config = false \/ ~ In key (keys_set cs) ->
     get key now (run config cs (makeCache V))
     = (Failure (CacheMissError key), run config cs (makeCache V)))
  /\ (forall st,
        let st' := snd (fst (clear st) (snd (clear st))) in
        fst (fst (clear st) (snd (clear st))) = Success tt /\
        current st' = [] /\
        size st' = (Success 0%nat, st') /\
        forall cs,
          ~ In key (keys_set cs) ->
          get key now (run config cs st')
          = (Failure (CacheMissError key), run config cs st')).
Proof.
  split.
  - intros cs [Hen|Hk]; apply get_miss, Map_has_false.
    + now rewrite run_disabled.
    + now apply run_absent.
  - intros st st'.
    destruct (clear_run V st) as (st0 & Hst0 & Hex & Hcur).
    fold st' in Hst0. subst st0.
    split; [exact Hex|]. split; [exact Hcur|]. split.
    + now rewrite size_run, Hcur.
    + intros cs Hk. apply get_miss, Map_has_false.
      apply run_absent; [exact Hk|]. now rewrite Hcur.
Qed.

(** C10.  A [get] that fails with [CacheMiss] and a [set] that fails with
    [CacheFull] leave the whole store as it was: nothing is deleted and
    nothing is inserted. *)
Theorem failures_leave_state key v now st :
  (forall k' st',
     get key now st = (Failure (CacheMissError k'), st') -> st' = st)
  /\ (forall a b st',
        set config key v now st = (Failure (CacheFullError a b), st') -> st' = st).
Proof.
  split.
  - intros k' st' H.
    destruct (get_cases V key now st)
      as [[_ H1]|[(e & _ & _ & H1)|(e & _ & _ & H1)]];
      rewrite H1 in H; congruence.
  - intros a b st' H.
    destruct (set_cases V config key v now st)
      as [[_ H1]|[(_ & _ & H1)|[(k & _ & _ & _ & _ & H1)|(_ & _ & _ & H1)]]];
      rewrite H1 in H; congruence.
Qed.

End CacheProperties.

(** ** The properties at concrete caches *)

(** C1.  A cache of capacity 1 that holds the one key [""] is not empty,
    is at capacity and does not hold ["a"]; the scan of [set("a", 2)] ends
    on the entry of [""], [if (lruKey)] takes it for no key at all, and
    [set] fails with [CacheFull(1, 1)]. *)
Theorem set_cache_full_empty_key :
  let st := run config_one [CallSet "" 1 0] (makeCache Z) in
  counts (current st) = [("", 0%nat)] /\
  must_evict config_one "a" (current st) = true /\
  lruKey (current st) = Some "" /\
  set config_one "a" 2 5 st = (Failure (CacheFullError 1 1), st).
Proof. repeat split. Qed.

(** C5.  In a cache of capacity 2 holding [""] (never read) and ["b"]
    (read once), the entry to evict for [set("c", 3)] is the one of [""]:
    it comes first and its [accessCount] is least.  [set] deletes nothing
    and fails with [CacheFull(2, 2)]. *)
Theorem set_keeps_least_used_empty_key :
  let st := run config_two [CallSet "" 1 0; CallSet "b" 2 0; CallGet "b" 0]
              (makeCache Z) in
  counts (current st) = [("", 0%nat); ("b", 1%nat)] /\
  (exists e l2, first_least (current st) [] "" e l2) /\
  must_evict config_two "c" (current st) = true /\
  set config_two "c" 3 0 st = (Failure (CacheFullError 2 2), st).
Proof.
  cbv zeta. split; [reflexivity|]. split; [|split; reflexivity].
  eexists. eexists. split; [reflexivity|]. split.
  - intros k' e' [].
  - intros k' e' [[= <- <-]|[]]. simpl. lia.
Qed.

(** The scenario of the specification: capacity 2, [set("a", 1)],
    [set("b", 2)], [get("a")], [set("c", 3)].  The entry of ["b"] is evicted;
    ["a"] and ["c"] are still served. *)
Example evict_scenario :
  let st2 := run config_two [CallSet "a" 1 0; CallSet "b" 2 0] (makeCache Z) in
  let st3 := exec config_two (CallGet "a" 0) st2 in
  let st4 := exec config_two (CallSet "c" 3 0) st3 in
  fst (size st2) = Success 2%nat /\
  counts (current st3) = [("a", 1%nat); ("b", 0%nat)] /\
  fst (set config_two "c" 3 0 st3) = Success tt /\
  counts (current st4) = [("a", 1%nat); ("c", 0%nat)] /\
  fst (get "b" 0 st4) = Failure (CacheMissError "b") /\
  fst (get "a" 0 st4) = Success 1 /\
  fst (get "c" 0 st4) = Success 3.
Proof. repeat split. Qed.

(** C2 as stated fails: with [maxSize = 0] the new cache is at capacity and
    has nothing to evict, so [set("a", 1)] fails with [CacheFull(0, 0)] and
    the [get("a")] that follows fails with [CacheMiss("a")]. *)
Lemma set_then_get_zero_capacity :
  enabled config_zero = true /\
  ttlSeconds config_zero > 0 /\
  fst (set config_zero "a" 1 0 (makeCache Z)) = Failure (CacheFullError 0 0) /\
  fst (get "a" 0 (snd (set config_zero "a" 1 0 (makeCache Z))))
  = Failure (CacheMissError "a").
Proof. repeat split. Qed.

(** C3 as stated fails at [N = 0]: no key can be set, and the first key that
    is set evicts nothing, since [set] fails with [CacheFull(0, 0)]. *)
Lemma set_within_capacity_zero :
  enabled config_zero = true /\
  maxSize config_zero = 0 /\
  set_each config_zero [] (makeCache Z) = (Success tt, makeCache Z) /\
  fst (size (makeCache Z)) = Success 0%nat /\
  set config_zero "a" 1 0 (makeCache Z)
  = (Failure (CacheFullError 0 0), makeCache Z).
Proof. repeat split. Qed.

(** C4 as stated fails: with [maxSize = 0], [set("a", 1)] at [t0 = 0] fails
    with [CacheFull(0, 0)], and [get("a")] one millisecond past
    [t0 + ttlSeconds] fails with [CacheMiss("a")], not with [CacheExpired]. *)
Lemma get_after_ttl_zero_capacity :
  enabled config_zero = true /\
  fst (set config_zero "a" 1 0 (makeCache Z)) = Failure (CacheFullError 0 0) /\
  fst (get "a" (0 + ttlSeconds config_zero * 1000 + 1)
         (snd (set config_zero "a" 1 0 (makeCache Z))))
  = Failure (CacheMissError "a").
Proof. repeat split. Qed.

(** An effect built by one call of [clear] and run a second time puts the
    same Map object into the Ref cell again, with what has been stored in it
    since the first run. *)
Remark clear_effect_rerun :
  let eff := fst (clear (makeCache Z)) in
  let st1 := snd (eff (snd (clear (makeCache Z)))) in
  let st2 := run config_two [CallSet "a" 1 0] st1 in
  current st1 = [] /\ counts (current (snd (eff st2))) = [("a", 0%nat)].
Proof. repeat split. Qed.

(** ** The general properties at a concrete cache *)

(** A cache of capacity 2 after [set("a", 1)], [set("b", 2)], [get("a")]. *)
Lemma set_then_get_witness :
  let st := run config_two [CallSet "a" 1 0; CallSet "b" 2 0; CallGet "a" 0]
              (makeCache Z) in
  must_evict config_two "c" (current st) = true /\
  lruKey (current st) = Some "b" /\
  exists st1 st2,
    set config_two "c" 3 0 st = (Success tt, st1) /\
    get "c" 0 st1 = (Success 3, st2).
Proof.
  cbv zeta. split; [reflexivity|]. split; [reflexivity|].
  apply (set_then_get Z config_two "c" 3 0);
    [reflexivity | reflexivity | vm_compute; discriminate
    | intros _; vm_compute; discriminate].
Defined.

Lemma get_after_ttl_witness :
  let st := run config_two [CallSet "a" 1 0; CallSet "b" 2 0; CallGet "a" 0]
              (makeCache Z) in
  exists st1 st2,
    set config_two "c" 3 7 st = (Success tt, st1) /\
    get "c" (7 + ttlSeconds config_two * 1000 + 1) st1
    = (Failure (CacheExpiredError "c" 7 (7 + ttlSeconds config_two * 1000)), st2) /\
    current st2 = Map_delete "c" (current st1) /\
    Map_has "c" (current st2) = false /\
    forall now, get "c" now st2 = (Failure (CacheMissError "c"), st2).
Proof.
  cbv zeta.
  apply (get_after_ttl Z config_two "c" 3 7 1);
    [reflexivity | vm_compute; discriminate
    | intros _; vm_compute; discriminate | reflexivity].
Defined.

Lemma set_within_capacity_witness :
  let st := run config_two [CallSet "a" 1 0; CallSet "b" 2 0; CallGet "a" 0]
              (makeCache Z) in
  Z.of_nat (Map_size (current (snd (set config_two "c" 3 0 st)))) <= 2
  /\ (exists st',
        set_each config_two [("a", 1, 0); ("b", 2, 0)] (makeCache Z) = (Success tt, st') /\
        size st' = (Success 2%nat, st'))
  /\ (exists l1 k e l2 st',
        first_least (current st) l1 k e l2 /\
        set config_two "c" 3 0 st = (Success tt, st') /\
        current st' = l1 ++ l2 ++ [("c", new_entry config_two 3 0)] /\
        size st' = (Success 2%nat, st')).
Proof.
  cbv zeta.
  destruct (set_within_capacity Z config_two "c" 3 0
              (run config_two [CallSet "a" 1 0; CallSet "b" 2 0; CallGet "a" 0]
                 (makeCache Z)))
    as (Hbound & Hfill & Hevict).
  split; [apply Hbound; vm_compute; discriminate|]. split.
  - apply (Hfill eq_refl [("a", 1, 0); ("b", 2, 0)]); [|reflexivity].
    repeat constructor; simpl; intuition discriminate.
  - apply Hevict;
      [reflexivity | vm_compute; discriminate | reflexivity | reflexivity
      | reflexivity | vm_compute; discriminate].
Defined.

Lemma set_disabled_noop_witness :
  set config_off "a" 1 0 (makeCache Z) = (Success tt, makeCache Z)
  /\ get "a" 0 (makeCache Z) = (Failure (CacheMissError "a"), makeCache Z)
  /\ get "a" 9 (run config_off [CallSet "a" 1 0; CallClear; CallSet "b" 2 3] (makeCache Z))
     = (Failure (CacheMissError "a"),
        run config_off [CallSet "a" 1 0; CallClear; CallSet "b" 2 3] (makeCache Z)).
Proof.
  destruct (set_disabled_noop Z config_off "a" 1 0 (makeCache Z) eq_refl)
    as (Hset & Hget & Hrun).
  split; [exact Hset|]. split; [exact (Hget eq_refl 0)|].
  exact (proj2 (Hrun [CallSet "a" 1 0; CallClear; CallSet "b" 2 3] 9)).
Defined.

Lemma get_counts_set_resets_witness :
  let st := run config_two [CallSet "a" 1 0; CallSet "b" 2 0; CallGet "a" 0]
              (makeCache Z) in
  (exists st',
     get "a" 5 st = (Success 1, st') /\
     counts (current st') = [("a", 2%nat); ("b", 0%nat)])
  /\ (exists st',
        set config_two "a" 8 5 st = (Success tt, st') /\
        fst (size st') = Success 2%nat /\
        counts (current st') = [("a", 0%nat); ("b", 0%nat)]).
Proof.
  cbv zeta.
  destruct (get_counts_set_resets Z config_two "a"
              (run config_two [CallSet "a" 1 0; CallSet "b" 2 0; CallGet "a" 0]
                 (makeCache Z)))
    as (Hget & Hset).
  split.
  - destruct (Hget 5 (bump (new_entry config_two 1 0)) eq_refl)
      as (st' & Hrun & _); [vm_compute; discriminate|].
    exists st'. split; [exact Hrun|].
    injection Hrun as <-. reflexivity.
  - destruct (Hset 8 5 (or_introl eq_refl) eq_refl) as (st' & e' & Hrun & Hsz & _).
    exists st'. split; [exact Hrun|]. split; [exact Hsz|].
    injection Hrun as <-. reflexivity.
Defined.

Lemma get_misses_unset_and_cleared_witness :
  get "b" 0 (run config_two [CallSet "a" 1 0; CallGet "a" 0] (makeCache Z))
  = (Failure (CacheMissError "b"),
     run config_two [CallSet "a" 1 0; CallGet "a" 0] (makeCache Z))
  /\ (let st := run config_two [CallSet "a" 1 0; CallSet "b" 2 0] (makeCache Z) in
      let st' := snd (fst (clear st) (snd (clear st))) in
      size st' = (Success 0%nat, st') /\
      get "b" 0 (run config_two [CallSet "a" 1 0] st')
      = (Failure (CacheMissError "b"), run config_two [CallSet "a" 1 0] st')).
Proof.
  destruct (get_misses_unset_and_cleared Z config_two "b" 0) as (Hunset & Hclear).
  split.
  - apply (Hunset [CallSet "a" 1 0; CallGet "a" 0]).
    right. simpl. intuition discriminate.
  - cbv zeta.
    destruct (Hclear (run config_two [CallSet "a" 1 0; CallSet "b" 2 0] (makeCache Z)))
      as (_ & _ & Hsize & Hmiss).
    split; [exact Hsize|]. apply (Hmiss [CallSet "a" 1 0]).
    simpl. intuition discriminate.
Defined.

Lemma failures_leave_state_witness :
  snd (get "a" 0 (makeCache Z)) = makeCache Z
  /\ (let st := run config_one [CallSet "" 1 0] (makeCache Z) in
      snd (set config_one "a" 2 5 st) = st).
Proof.
  split.
  - destruct (failures_leave_state Z config_one "a" 2 0 (makeCache Z)) as (Hget & _).
    apply (Hget "a"). reflexivity.
  - cbv zeta.
    destruct (failures_leave_state Z config_one "a" 2 5
                (run config_one [CallSet "" 1 0] (makeCache Z))) as (_ & Hset).
    apply (Hset 1 1). reflexivity.
Defined.

(** ** Further facts about Maps *)

Section MapFurther.

Variable V : Type.

Implicit Types (m : CacheState V) (e : CacheEntry V) (key k : string).

Lemma In_Map_delete key k e m : In (k, e) (Map_delete key m) -> In (k, e) m.
Proof. unfold Map_delete. intros H. now apply filter_In in H. Qed.

Lemma In_Map_bump key k e m :
  In (k, e) (Map_bump key m) ->
  In (k, e) m \/ exists e0, In (k, e0) m /\ e = bump e0.
Proof.
  induction m as [|[k0 e0] m IH]; simpl; [tauto|].
  destruct (String.eqb k0 key).
  - intros [[= <- <-]|H]; [right; exists e0; auto | auto].
  - intros [H|H]; [auto|].
    destruct (IH H) as [H'|(e1 & H1 & H2)]; [auto | right; exists e1; auto].
Qed.

Lemma In_Map_set key e' k e m :
  In (k, e) (Map_set key e' m) -> In (k, e) m \/ (k = key /\ e = e').
Proof.
  induction m as [|[k0 e0] m IH]; simpl.
  - intros [[= <- <-]|[]]. auto.
  - destruct (String.eqb_spec k0 key) as [->|Hne].
    + intros [[= <- <-]|H]; auto.
    + intros [H|H]; [auto|]. destruct (IH H); auto.
Qed.

Lemma Map_get_app key m1 m2 :
  Map_get key (m1 ++ m2)
  = match Map_get key m1 with Some e => Some e | None => Map_get key m2 end.
Proof.
  induction m1 as [|[k e] m1 IH]; simpl; [reflexivity|].
  destruct (String.eqb k key); auto.
Qed.

(** In a Map, the entry found under a key is the one entry of that key. *)
Lemma Map_get_middle l1 k e l2 :
  Map_ok (l1 ++ (k, e) :: l2) = true ->
  Map_get k (l1 ++ (k, e) :: l2) = Some e.
Proof.
  intros Hok. destruct (Map_ok_app V _ _ Hok) as (_ & _ & H3).
  rewrite Map_get_app.
  destruct (Map_get k l1) as [e1|] eqn:E.
  - assert (H1 : Map_has k l1 = true) by (apply Map_has_true; eauto).
    specialize (H3 k H1). unfold Map_has in H3. simpl in H3.
    now rewrite String.eqb_refl in H3.
  - simpl. now rewrite String.eqb_refl.
Qed.

Lemma Map_delete_one key m :
  Map_ok m = true -> Map_has key m = true ->
  S (Map_size (Map_delete key m)) = Map_size m.
Proof.
  unfold Map_size. induction m as [|[k e] m IH]; [discriminate|].
  cbn [Map_ok]. intros Hok Hhas. apply andb_prop in Hok as [Hk Hok].
  apply negb_true_iff in Hk.
  unfold Map_delete. cbn [filter fst]. fold (Map_delete key m).
  destruct (String.eqb_spec k key) as [->|Hne]; cbn [negb].
  - now rewrite Map_delete_absent.
  - cbn [List.length]. f_equal. apply IH; [exact Hok|].
    unfold Map_has in *. simpl in Hhas.
    destruct (String.eqb_spec k key); [contradiction | exact Hhas].
Qed.

End MapFurther.

(** ** Further facts about the operations *)

Section CacheFurther.

Variable V : Type.
Variable config : CacheConfigType.

Implicit Types (st : Store V) (m : CacheState V) (e : CacheEntry V).
Implicit Types (key k : string) (v : V) (now : Date) (cs : list (Call V)).

Lemma run_cons c cs st : run config (c :: cs) st = run config cs (exec config c st).
Proof. reflexivity. Qed.

Lemma get_size key now st :
  (Map_size (current (snd (get key now st))) <= Map_size (current st))%nat.
Proof.
  destruct (get_cases V key now st) as [[_ H]|[(e & _ & _ & H)|(e & _ & _ & H)]];
    rewrite H; cbn [snd]; auto; rewrite current_with_current.
  - apply Map_delete_size.
  - now rewrite Map_bump_size.
Qed.

Lemma get_other key now st k :
  k <> key -> Map_get k (current (snd (get key now st))) = Map_get k (current st).
Proof.
  intros Hne.
  destruct (get_cases V key now st) as [[_ H]|[(e & _ & _ & H)|(e & _ & _ & H)]];
    rewrite H; cbn [snd]; auto; rewrite current_with_current.
  - apply Map_get_delete_other. congruence.
  - apply Map_get_bump_other. congruence.
Qed.

Lemma set_other key v now st k :
  k <> key ->
  Map_get k (current (snd (set config key v now st))) = Map_get k (current st)
  \/ (must_evict config key (current st) = true /\
      lruKey (current st) = Some k /\
      Map_get k (current (snd (set config key v now st))) = None).
Proof.
  intros Hne.
  destruct (set_cases V config key v now st)
    as [[_ H]|[(_ & _ & H)|[(k0 & _ & Hev & Hk & _ & H)|(_ & _ & _ & H)]]];
    rewrite H; cbn [snd]; auto; rewrite !current_with_current;
    rewrite Map_get_set_other by congruence; auto.
  destruct (String.eqb_spec k0 k) as [->|Hk0].
  - right. repeat split; auto. apply Map_get_delete_same.
  - left. now apply Map_get_delete_other.
Qed.

(** *** The bound over a history *)

Lemma exec_bound c st :
  0 <= maxSize config ->
  Z.of_nat (Map_size (current st)) <= maxSize config ->
  Z.of_nat (Map_size (current (exec config c st))) <= maxSize config.
Proof.
  intros Hmax Hb. destruct c as [key now|key v now| |].
  - cbn [exec]. pose proof (get_size key now st). lia.
  - cbn [exec]. now apply set_keeps_bound.
  - rewrite exec_clear. simpl. exact Hmax.
  - exact Hb.
Qed.

Lemma exec_stays_empty c st :
  maxSize config <= 0 -> current st = [] -> current (exec config c st) = [].
Proof.
  intros Hmax Hcur. destruct c as [key now|key v now| |].
  - cbn [exec]. rewrite get_miss by (rewrite Hcur; reflexivity). exact Hcur.
  - cbn [exec]. destruct (set_cases V config key v now st)
      as [[_ H]|[(_ & Hev & H)|[(k0 & _ & _ & Hk & _ & H)|(_ & _ & _ & H)]]];
      rewrite H; cbn [snd]; auto.
    + unfold must_evict in Hev. rewrite Hcur in Hev. simpl in Hev.
      rewrite andb_true_r in Hev. rewrite Z.geb_leb in Hev.
      apply Z.leb_gt in Hev. lia.
    + rewrite Hcur in Hk. discriminate.
  - apply exec_clear.
  - exact Hcur.
Qed.

Lemma run_bound cs : forall st,
  Z.of_nat (Map_size (current st)) <= Z.max 0 (maxSize config) ->
  (maxSize config <= 0 -> current st = []) ->
  Z.of_nat (Map_size (current (run config cs st))) <= Z.max 0 (maxSize config).
Proof.
  induction cs as [|c cs IH]; intros st Hb Hempty; [exact Hb|].
  rewrite run_cons.
  destruct (Z_le_gt_dec (maxSize config) 0) as [Hle|Hgt].
  - assert (Hcur : current (exec config c st) = [])
      by (apply exec_stays_empty; auto).
    apply IH; [rewrite Hcur; simpl; lia | auto].
  - apply IH; [|lia].
    rewrite Z.max_r in * by lia. apply exec_bound; [lia | exact Hb].
Qed.

(** *** Where the entries come from *)

Lemma sourced_more cs cs' m : sourced config cs m -> sourced config (cs ++ cs') m.
Proof.
  intros H k e Hin. destruct (H k e Hin) as [H1 H2].
  split; [apply in_or_app; now left | exact H2].
Qed.

Lemma exec_sourced cs c st :
  sourced config cs (current st) -> sourced config (cs ++ [c]) (current (exec config c st)).
Proof.
  intros Hs. destruct c as [key now|key v now| |].
  - cbn [exec].
    destruct (get_cases V key now st) as [[_ H]|[(e & _ & _ & H)|(e & _ & _ & H)]];
      rewrite H; cbn [snd]; try rewrite current_with_current.
    + now apply sourced_more.
    + intros k e' Hin. apply In_Map_delete in Hin.
      now apply (sourced_more cs [CallGet key now] _ Hs).
    + intros k e' Hin. apply In_Map_bump in Hin as [Hin|(e0 & Hin & ->)].
      * now apply (sourced_more cs [CallGet key now] _ Hs).
      * destruct (Hs k e0 Hin) as [H1 H2].
        split; [apply in_or_app; left; exact H1 | exact H2].
  - cbn [exec].
    assert (Hnew : forall m, sourced config cs m ->
                     sourced config (cs ++ [CallSet key v now])
                       (Map_set key (new_entry config v now) m)).
    { intros m Hm k e' Hin. apply In_Map_set in Hin as [Hin|[-> ->]].
      - now apply (sourced_more cs [CallSet key v now] _ Hm).
      - split; [apply in_or_app; right; now left | reflexivity]. }
    destruct (set_cases V config key v now st)
      as [[_ H]|[(_ & _ & H)|[(k0 & _ & _ & _ & _ & H)|(_ & _ & _ & H)]]];
      rewrite H; cbn [snd]; try rewrite !current_with_current.
    + now apply sourced_more.
    + now apply Hnew.
    + apply Hnew. intros k e' Hin. apply In_Map_delete in Hin. now apply Hs.
    + now apply sourced_more.
  - rewrite exec_clear. intros k e' [].
  - now apply sourced_more.
Qed.

Lemma run_sourced cs : forall pre st,
  sourced config pre (current st) -> sourced config (pre ++ cs) (current (run config cs st)).
Proof.
  induction cs as [|c cs IH]; intros pre st Hs.
  - rewrite app_nil_r. exact Hs.
  - rewrite run_cons.
    replace (pre ++ c :: cs) with ((pre ++ [c]) ++ cs)
      by (rewrite <- app_assoc; reflexivity).
    apply IH. now apply exec_sourced.
Qed.

(** *** The Ref cell under calls other than [clear] *)

Lemma exec_cacheRef c st :
  no_clear [c] = true -> cacheRef (exec config c st) = cacheRef st.
Proof.
  destruct c as [key now|key v now| |]; intros Hc; try discriminate.
  - cbn [exec]. destruct (get_store V key now st) as [->|[f ->]]; reflexivity.
  - cbn [exec].
    destruct (set_store V config key v now st) as [->|[[f ->]|(f & g & ->)]];
      reflexivity.
  - reflexivity.
Qed.

Lemma run_cacheRef cs : forall st,
  no_clear cs = true -> cacheRef (run config cs st) = cacheRef st.
Proof.
  induction cs as [|c cs IH]; intros st Hc; [reflexivity|].
  rewrite run_cons. cbn [no_clear forallb] in Hc.
  apply andb_prop in Hc as [Hc Hcs].
  rewrite IH by exact Hcs. apply exec_cacheRef.
  cbn [no_clear forallb]. now rewrite Hc.
Qed.

(** What [get] answers depends on the Map of the Ref cell only. *)
Lemma get_fst_current key now st st' :
  current st = current st' -> fst (get key now st) = fst (get key now st').
Proof.
  intros Heq.
  destruct (get_cases V key now st) as [[Hg H]|[(e & Hg & Ht & H)|(e & Hg & Ht & H)]];
    rewrite H; rewrite Heq in Hg.
  - now rewrite (get_miss V key now st' Hg).
  - now rewrite (get_expired V key now st' e Hg Ht).
  - now rewrite (get_live V key now st' e Hg Ht).
Qed.

(** ** Further properties of the cache *)

(** X1.  After any history of calls on a new cache, [size()] is at most
    [maxSize], and 0 when [maxSize] is negative. *)
Theorem run_within_capacity cs :
  exists n,
    size (run config cs (makeCache V)) = (Success n, run config cs (makeCache V)) /\
    Z.of_nat n <= Z.max 0 (maxSize config).
Proof.
  eexists. split; [apply size_run|].
  apply run_bound; [simpl; lia | reflexivity].
Qed.

(** X2.  After any history of calls on a new cache, a [get(k)] that succeeds
    with [v] at the clock reading [now] answers a [set(k, v)] of the history
    that was run at some reading [t] with [now <= t + ttlSeconds]: no value
    is served that was not set under that key, and none past its time to
    live. *)
Theorem get_serves_fresh cs key now v st' :
  get key now (run config cs (makeCache V)) = (Success v, st') ->
  exists t, In (CallSet key v t) cs /\ now <= t + ttlSeconds config * 1000.
Proof.
  intros Hget.
  destruct (get_cases V key now (run config cs (makeCache V)))
    as [[_ H]|[(e & _ & _ & H)|(e & He & Hlive & H)]];
    rewrite H in Hget; try discriminate.
  injection Hget as <- _.
  destruct (run_sourced cs [] (makeCache V)) with (k := key) (e := e) as [Hin Hexp].
  - intros k e0 [].
  - now apply Map_get_In.
  - exists (cachedAt e). split; [exact Hin | lia].
Qed.

(** X3.  A [set(key, v)], however it ends, leaves the entry of every other
    key as it was, except for the one key the eviction scan ended on, whose
    entry is deleted; and it never adds more than one entry. *)
Theorem set_touches_two_keys key v now st :
  (forall k,
     k <> key ->
     Map_get k (current (snd (set config key v now st))) = Map_get k (current st)
     \/ (must_evict config key (current st) = true /\
         lruKey (current st) = Some k /\
         Map_get k (current (snd (set config key v now st))) = None))
  /\ (Map_size (current (snd (set config key v now st)))
      <= S (Map_size (current st)))%nat.
Proof.
  split; [intros k; apply set_other|].
  assert (Hle : forall e m, (Map_size (Map_set key e m) <= S (Map_size m))%nat).
  { intros e m. destruct (Map_has key m) eqn:Hhas.
    - rewrite Map_set_has by exact Hhas. lia.
    - rewrite Map_set_size_new by exact Hhas. lia. }
  destruct (set_cases V config key v now st)
    as [[_ H]|[(_ & _ & H)|[(k0 & _ & _ & _ & _ & H)|(_ & _ & _ & H)]]];
    rewrite H; cbn [snd]; try lia; rewrite !current_with_current.
  - apply Hle.
  - pose proof (Hle (new_entry config v now) (Map_delete k0 (current st))).
    pose proof (Map_delete_size V k0 (current st)). lia.
Qed.

(** X4.  [set] never evicts an entry that has been read more often than
    some other entry of the Map: such an entry is still there, unchanged,
    after a [set] of another key. *)
Theorem set_spares_more_read key v now st k0 e0 k1 e1 :
  Map_ok (current st) = true ->
  k0 <> key ->
  Map_get k0 (current st) = Some e0 ->
  Map_get k1 (current st) = Some e1 ->
  (accessCount e1 < accessCount e0)%nat ->
  Map_get k0 (current (snd (set config key v now st))) = Some e0.
Proof.
  intros Hok Hne H0 H1 Hlt.
  destruct (set_other key v now st k0 Hne) as [->|(_ & Hk & _)]; [exact H0|].
  exfalso.
  assert (Hnil : current st <> []) by (intros E; rewrite E in H0; discriminate).
  destruct (lruKey_first_least V _ Hnil) as (l1 & k & e & l2 & (Hm & Hl1 & Hl2) & Hk').
  rewrite Hk in Hk'. injection Hk' as <-.
  rewrite Hm in Hok, H0, H1.
  rewrite (Map_get_middle V _ _ _ _ Hok) in H0. injection H0 as ->.
  apply Map_get_In in H1. apply in_app_or in H1 as [Hin|[[= _ ->]|Hin]].
  - specialize (Hl1 _ _ Hin). lia.
  - lia.
  - specialize (Hl2 _ _ Hin). lia.
Qed.

(** X5.  When no entry has been read less often than the oldest one (as
    when none has been read at all), a [set] that has to evict deletes the
    oldest entry: the Map loses its first entry and gains the new one at the
    end, provided the key of the oldest entry is not the empty string. *)
Theorem set_evicts_oldest key v now st k0 e0 rest :
  enabled config = true ->
  Map_ok (current st) = true ->
  current st = (k0, e0) :: rest ->
  (forall k e, In (k, e) rest -> (accessCount e0 <= accessCount e)%nat) ->
  must_evict config key (current st) = true ->
  k0 <> "" ->
  exists st',
    set config key v now st = (Success tt, st') /\
    current st' = rest ++ [(key, new_entry config v now)].
Proof.
  intros Hen Hok Hcur Hleast Hev Hk0.
  assert (Hnil : current st <> []) by (rewrite Hcur; discriminate).
  destruct (lruKey_first_least V _ Hnil) as (l1 & k & e & l2 & (Hm & Hl1 & Hl2) & Hk).
  assert (Hl1nil : l1 = []).
  { destruct l1 as [|[k' e'] l1']; [reflexivity|]. exfalso.
    rewrite Hcur in Hm. injection Hm as <- <- Hrest.
    specialize (Hl1 k0 e0 (or_introl eq_refl)).
    assert (Hin : In (k, e) rest)
      by (rewrite Hrest; apply in_or_app; right; now left).
    specialize (Hleast _ _ Hin). lia. }
  subst l1. rewrite Hcur in Hm. injection Hm as <- <- ->.
  eexists. split; [now apply (set_evicts V config key v now st k0)|].
  rewrite !current_with_current.
  rewrite Map_set_new
    by (apply Map_has_delete_absent; eapply must_evict_absent; exact Hev).
  rewrite Hcur in Hok |- *.
  pose proof (Map_delete_middle V [] k0 e0 l2 Hok) as Hdel.
  cbn [app] in Hdel. now rewrite Hdel.
Qed.

(** X6.  A [get(key)], however it ends, leaves the entry of every other key
    as it was and never adds an entry; when it finds the entry expired, the
    Map has exactly one entry less afterwards. *)
Theorem get_touches_one_key key now st :
  (forall k, k <> key ->
     Map_get k (current (snd (get key now st))) = Map_get k (current st))
  /\ (Map_size (current (snd (get key now st))) <= Map_size (current st))%nat
  /\ (forall e,
        Map_ok (current st) = true ->
        Map_get key (current st) = Some e ->
        expiresAt e < now ->
        S (Map_size (current (snd (get key now st)))) = Map_size (current st)).
Proof.
  split; [intros k; apply get_other|]. split; [apply get_size|].
  intros e Hok Hget Hexp. rewrite (get_expired V key now st e Hget Hexp).
  cbn [snd]. rewrite current_with_current.
  apply Map_delete_one; [exact Hok|]. apply Map_has_true. eauto.
Qed.

(** X7.  The failures say what happened.  A [get(key)] fails with
    [CacheMiss(key)] when the key is not stored, and otherwise with
    [CacheExpired] carrying the key and the [cachedAt] and [expiresAt] of
    the stored entry, which lies before the clock reading.  A [set] fails
    with [CacheFull] only, carrying the configured [maxSize] and the number
    of entries, which is at least [maxSize]; the cache is enabled and the
    key is not stored. *)
Theorem failures_name_their_cause key v now st :
  (forall err st',
     get key now st = (Failure err, st') ->
     (err = CacheMissError key /\ Map_get key (current st) = None) \/
     (exists e,
        Map_get key (current st) = Some e /\ expiresAt e < now /\
        err = CacheExpiredError key (cachedAt e) (expiresAt e)))
  /\ (forall err st',
        set config key v now st = (Failure err, st') ->
        err = CacheFullError (maxSize config) (Z.of_nat (Map_size (current st))) /\
        maxSize config <= Z.of_nat (Map_size (current st)) /\
        Map_has key (current st) = false /\
        enabled config = true).
Proof.
  split.
  - intros err st' H.
    destruct (get_cases V key now st)
      as [[Hg H1]|[(e & Hg & Ht & H1)|(e & _ & _ & H1)]];
      rewrite H1 in H; try discriminate; injection H as <- _.
    + left. auto.
    + right. exists e. auto.
  - intros err st' H.
    destruct (set_cases V config key v now st)
      as [[_ H1]|[(_ & _ & H1)|[(k & _ & _ & _ & _ & H1)|(Hen & Hev & _ & H1)]]];
      rewrite H1 in H; try discriminate. injection H as <- _.
    split; [reflexivity|]. split; [|split; [|exact Hen]].
    + unfold must_evict in Hev. apply andb_prop in Hev as [Hsz _].
      now apply Z.geb_le in Hsz.
    + eapply must_evict_absent; exact Hev.
Qed.

(** X8.  The effect of a [clear()] call empties the cache the first time
    it is run, whatever calls were made before the [clear()] call and
    between the call and the run: [size()] is 0 and every [get] fails with
    [CacheMiss]. *)
Theorem clear_empties_at_first_run cs0 cs :
  let st := run config cs0 (makeCache V) in
  let st' := snd (fst (clear st) (run config cs (snd (clear st)))) in
  current st' = [] /\
  size st' = (Success 0%nat, st') /\
  forall key now, get key now st' = (Failure (CacheMissError key), st').
Proof.
  intros st st'.
  assert (Hcur : current st' = []).
  { apply clear_first_run. apply run_ok. unfold Store_ok. simpl. lia. }
  split; [exact Hcur|]. split.
  - now rewrite size_run, Hcur.
  - intros key now. apply get_miss. now rewrite Hcur.
Qed.

(** X9.  The effect of a [clear()] call clears only once.  Run a second
    time, with no other [clear()] run in between, it puts the same Map back
    into the Ref cell: every entry stored since the first run stays, and
    [size()] and every [get] answer as before the second run. *)
Theorem clear_effect_clears_once cs cs' st :
  no_clear cs' = true ->
  let eff := fst (clear st) in
  let st1 := snd (eff (run config cs (snd (clear st)))) in
  let st2 := run config cs' st1 in
  fst (eff st2) = Success tt /\
  current (snd (eff st2)) = current st2 /\
  fst (size (snd (eff st2))) = fst (size st2) /\
  forall key now, fst (get key now (snd (eff st2))) = fst (get key now st2).
Proof.
  intros Hc eff st1 st2.
  assert (Hcur : current (snd (eff st2)) = current st2).
  { assert (Href : cacheRef st2 = next_ref st)
      by (unfold st2; rewrite run_cacheRef by exact Hc; reflexivity).
    assert (Hsame : forall s, cacheRef s = next_ref st ->
                              current (snd (fst (clear st) s)) = current s).
    { intros s Hs. unfold current, clear, new_Map, Ref_set. simpl.
      now rewrite Hs. }
    now apply Hsame. }
  split; [reflexivity|]. split; [exact Hcur|]. split.
  - now rewrite !size_run, Hcur.
  - intros key now. now apply get_fst_current.
Qed.

End CacheFurther.

(** ** Facts about the weather service *)

Section ServiceFacts.

Variable V : Type.
Variable ApiError : Type.
Variable Location : Type.
Variable id : Location -> string.
Variable config : CacheConfigType.

Implicit Types (st : Store V) (e : CacheEntry V) (now : Date).
Implicit Types (api : Location -> ApiError + V) (l : Location).
Implicit Types (c : ServiceCall V ApiError Location).

Lemma get_or_null_store key now st :
  snd (get_or_null key now st) = exec config (CallGet key now) st.
Proof.
  unfold get_or_null. cbn [exec].
  destruct (get key now st) as [[cached|err] st']; reflexivity.
Qed.

Lemma get_or_null_hit key now st e :
  Map_get key (current st) = Some e ->
  now <= expiresAt e ->
  get_or_null key now st = (Some (value e), with_current (Map_bump key) st).
Proof.
  intros Hg Hl. unfold get_or_null. now rewrite (get_live V key now st e Hg Hl).
Qed.

Lemma get_or_null_none key now st :
  Map_get key (current st) = None \/
  (exists e, Map_get key (current st) = Some e /\ expiresAt e < now) ->
  fst (get_or_null key now st) = None /\
  Map_get key (current (snd (get_or_null key now st))) = None.
Proof.
  unfold get_or_null. intros [Hg|(e & Hg & Ht)].
  - rewrite (get_miss V key now st Hg). auto.
  - rewrite (get_expired V key now st e Hg Ht). cbn [fst snd].
    rewrite current_with_current. split; [reflexivity|].
    apply Map_get_delete_same.
Qed.

Lemma get_or_null_some key now st r :
  fst (get_or_null key now st) = Some r ->
  exists e, Map_get key (current st) = Some e /\ now <= expiresAt e /\ value e = r.
Proof.
  unfold get_or_null.
  destruct (get_cases V key now st) as [[_ H]|[(e & _ & _ & H)|(e & Hg & Hl & H)]];
    rewrite H; cbn [fst]; try discriminate.
  intros [= <-]. exists e. auto.
Qed.

Lemma run_app cs1 cs2 st :
  run config (cs1 ++ cs2) st = run config cs2 (run config cs1 st).
Proof. unfold run. apply fold_left_app. Qed.

(** A call of the service is the calls of the cache it makes. *)
Lemma serve_run c st :
  serve id config c st = run config (cache_calls id c st) st.
Proof.
  destruct c as [api l now now'|api l now']; cbn [serve cache_calls].
  - unfold getCurrentWeather.
    pose proof (get_or_null_store (cacheKey id l) now st) as Hst.
    destruct (get_or_null (cacheKey id l) now st) as [[r|] st1];
      cbn [fst snd] in *; subst st1; [reflexivity|].
    destruct (api l) as [err|fresh]; reflexivity.
  - unfold refreshWeather. destruct (api l) as [err|fresh]; reflexivity.
Qed.

Lemma serve_all_run (cs : list (ServiceCall V ApiError Location)) : forall st,
  serve_all id config cs st = run config (cache_history id config cs st) st.
Proof.
  induction cs as [|c cs IH]; intros st; [reflexivity|].
  cbn [cache_history]. rewrite run_app, <- serve_run. apply IH.
Qed.

(** What the service sets, it sets under the key of a location, with a
    reading the API gave for that location at that call. *)
Lemma cache_calls_set c st k v t :
  In (CallSet k v t) (cache_calls id c st) ->
  exists api l,
    k = cacheKey id l /\ api l = inr v /\
    (c = ServeRefresh api l t \/ exists now, c = ServeCurrent api l now t).
Proof.
  destruct c as [api l now now'|api l now']; cbn [cache_calls].
  - intros [H|H]; [discriminate|].
    destruct (fst (get_or_null (cacheKey id l) now st)); [destruct H|].
    destruct (api l) as [err|fresh] eqn:Hapi; [destruct H|].
    destruct H as [[= <- <- <-]|[]]. exists api, l. eauto.
  - destruct (api l) as [err|fresh] eqn:Hapi; [intros []|].
    intros [[= <- <- <-]|[]]. exists api, l. eauto.
Qed.

Lemma cache_history_set (cs : list (ServiceCall V ApiError Location)) :
  forall st k v t,
  In (CallSet k v t) (cache_history id config cs st) ->
  exists c api l,
    In c cs /\ k = cacheKey id l /\ api l = inr v /\
    (c = ServeRefresh api l t \/ exists now, c = ServeCurrent api l now t).
Proof.
  induction cs as [|c cs IH]; intros st k v t; cbn [cache_history]; [intros []|].
  intros H. apply in_app_or in H as [H|H].
  - destruct (cache_calls_set c st k v t H) as (api & l & Hk & Ha & Hc).
    exists c, api, l. repeat split; auto. now left.
  - destruct (IH _ _ _ _ H) as (c' & api & l & Hin & Hk & Ha & Hc).
    exists c', api, l. repeat split; auto. now right.
Qed.

Lemma keys_set_In (cs : list (Call V)) k :
  In k (keys_set cs) -> exists v t, In (CallSet k v t) cs.
Proof.
  induction cs as [|c cs IH]; simpl; [intros []|].
  destruct c as [key now|key v now| |]; simpl.
  - intros H. destruct (IH H) as (v & t & Hin). eauto.
  - intros [<-|H]; [eauto|]. destruct (IH H) as (v' & t & Hin). eauto.
  - intros H. destruct (IH H) as (v & t & Hin). eauto.
  - intros H. destruct (IH H) as (v & t & Hin). eauto.
Qed.

Lemma cacheKey_not_empty l : cacheKey id l <> "".
Proof. unfold cacheKey. simpl. discriminate. Qed.

Lemma cacheKey_inj l l' : cacheKey id l = cacheKey id l' -> id l = id l'.
Proof. unfold cacheKey. simpl. now intros [= H]. Qed.

(** The service never stores anything under the empty key. *)
Lemma serve_all_no_empty_key (cs : list (ServiceCall V ApiError Location)) :
  Map_has "" (current (serve_all id config cs (makeCache V))) = false.
Proof.
  rewrite serve_all_run. apply run_absent; [|reflexivity].
  intros Hin. apply keys_set_In in Hin as (v & t & Hin).
  apply cache_history_set in Hin as (c & api & l & _ & Hk & _).
  symmetry in Hk. exact (cacheKey_not_empty l Hk).
Qed.

(** Hence its [set] always stores, when the cache is enabled and has room
    for an entry. *)
Lemma set_or_void_stores key fresh now st :
  enabled config = true ->
  1 <= maxSize config ->
  Map_has "" (current st) = false ->
  Map_get key (current (set_or_void config key fresh now st))
  = Some (new_entry config fresh now).
Proof.
  intros Hen Hmax Hno. unfold set_or_void.
  destruct (set_stores V config key fresh now st Hen Hmax) as (st' & Hset & Hget).
  - intros _ Hk. apply lruKey_has in Hk. congruence.
  - now rewrite Hset.
Qed.

Lemma getCurrentWeather_hit api l now now' st e :
  Map_get (cacheKey id l) (current st) = Some e ->
  now <= expiresAt e ->
  getCurrentWeather id config api l now now' st
  = (inr (value e), with_current (Map_bump (cacheKey id l)) st).
Proof.
  intros Hg Hl. unfold getCurrentWeather.
  now rewrite (get_or_null_hit _ _ _ _ Hg Hl).
Qed.

Lemma getCurrentWeather_fetch api l now now' st :
  Map_get (cacheKey id l) (current st) = None \/
  (exists e, Map_get (cacheKey id l) (current st) = Some e /\ expiresAt e < now) ->
  getCurrentWeather id config api l now now' st
  = match api l with
    | inl err => (inl err, exec config (CallGet (cacheKey id l) now) st)
    | inr fresh =>
        (inr fresh,
         set_or_void config (cacheKey id l) fresh now'
           (exec config (CallGet (cacheKey id l) now) st))
    end.
Proof.
  intros Hno. unfold getCurrentWeather.
  destruct (get_or_null_none _ now st Hno) as [Hfst _].
  pose proof (get_or_null_store (cacheKey id l) now st) as Hst.
  destruct (get_or_null (cacheKey id l) now st) as [cached st1].
  cbn [fst snd] in *. subst cached st1. reflexivity.
Qed.

(** ** Properties of the weather service *)


(** X11.  After a [getCurrentWeather] that ends with an error of the API,
    the cache holds no entry for that location (an expired one has been
    deleted, none has been stored) and the entries of all other keys are as
    before.  A [refreshWeather] that ends with an error leaves the cache as
    it is. *)
Theorem service_failure_stores_nothing api l now now' st err :
  (fst (getCurrentWeather id config api l now now' st) = inl err ->
   let st' := snd (getCurrentWeather id config api l now now' st) in
   Map_get (cacheKey id l) (current st') = None /\
   forall k, k <> cacheKey id l -> Map_get k (current st') = Map_get k (current st))
  /\ (fst (refreshWeather id config api l now' st) = inl err ->
      snd (refreshWeather id config api l now' st) = st).
Proof.
  split.
  - destruct (get_cases V (cacheKey id l) now st)
      as [[Hg _]|[(e & Hg & Ht & _)|(e & Hg & Hl & _)]].
    + rewrite (getCurrentWeather_fetch api l now now' st (or_introl Hg)).
      destruct (api l) as [err'|fresh]; [|discriminate]. intros _ st'.
      unfold st'. cbn [snd exec]. rewrite (get_miss V _ now st Hg). cbn [snd].
      split; [exact Hg | reflexivity].
    + assert (Hno : Map_get (cacheKey id l) (current st) = None \/
                    exists e, Map_get (cacheKey id l) (current st) = Some e /\
                              expiresAt e < now) by (right; eauto).
      rewrite (getCurrentWeather_fetch api l now now' st Hno).
      destruct (api l) as [err'|fresh]; [|discriminate]. intros _ st'.
      unfold st'. cbn [snd exec]. split.
      * rewrite (get_expired V _ now st e Hg Ht). cbn [snd].
        rewrite current_with_current. apply Map_get_delete_same.
      * intros k Hk. now apply get_other.
    + rewrite (getCurrentWeather_hit api l now now' st e Hg Hl). discriminate.
  - unfold refreshWeather. destruct (api l); [reflexivity | discriminate].
Qed.

(** X12.  Whatever calls of the service were made on a new cache, every key
    of the cache is the key [weather:<id>] of a location. *)
Theorem service_keys (scs : list (ServiceCall V ApiError Location)) k :
  Map_has k (current (serve_all id config scs (makeCache V))) = true ->
  exists l, k = cacheKey id l.
Proof.
  intros Hhas.
  destruct (in_dec string_dec k
              (keys_set (cache_history id config scs (makeCache V)))) as [Hin|Hnin].
  - apply keys_set_In in Hin as (v & t & Hin).
    apply cache_history_set in Hin as (c & api & l & _ & Hk & _). eauto.
  - rewrite serve_all_run in Hhas.
    rewrite (run_absent V config k _ (makeCache V) Hnin eq_refl) in Hhas.
    discriminate.
Qed.

(** X14.  Whatever calls of the service were made on a new cache, a reading
    that [getCurrentWeather] answers is either what the API answers now, or
    a reading the API gave to an earlier call of the service for a location
    of the same id, which set it at a reading [t] with
    [now <= t + ttlSeconds]: the service never answers a reading kept longer
    than its time to live. *)
Theorem service_serves_fresh
    (scs : list (ServiceCall V ApiError Location)) api l now now' r :
  fst (getCurrentWeather id config api l now now'
         (serve_all id config scs (makeCache V))) = inr r ->
  api l = inr r \/
  exists c api0 l0 t,
    In c scs /\ id l0 = id l /\ api0 l0 = inr r /\
    now <= t + ttlSeconds config * 1000 /\
    (c = ServeRefresh api0 l0 t \/ exists now0, c = ServeCurrent api0 l0 now0 t).
Proof.
  set (st := serve_all id config scs (makeCache V)).
  destruct (get_cases V (cacheKey id l) now st)
    as [[Hg _]|[(e & Hg & Ht & _)|(e & Hg & Hl & _)]].
  - rewrite (getCurrentWeather_fetch api l now now' st (or_introl Hg)).
    destruct (api l); [discriminate | auto].
  - assert (Hno : Map_get (cacheKey id l) (current st) = None \/
                  exists e, Map_get (cacheKey id l) (current st) = Some e /\
                            expiresAt e < now) by (right; eauto).
    rewrite (getCurrentWeather_fetch api l now now' st Hno).
    destruct (api l); [discriminate | auto].
  - rewrite (getCurrentWeather_hit api l now now' st e Hg Hl). cbn [fst].
    intros [= <-]. right.
    unfold st in Hg. rewrite serve_all_run in Hg. apply Map_get_In in Hg.
    destruct (run_sourced V config (cache_history id config scs (makeCache V))
                [] (makeCache V)) with (k := cacheKey id l) (e := e)
      as [Hin Hexp]; [intros k e0 [] | exact Hg |].
    apply cache_history_set in Hin as (c & api0 & l0 & Hc & Hk & Ha & Hform).
    exists c, api0, l0, (cachedAt e). repeat split; auto.
    + symmetry. now apply cacheKey_inj.
    + lia.
Qed.

End ServiceFacts.

(** ** The further properties at concrete caches *)

Lemma get_serves_fresh_witness :
  exists t,
    In (CallSet "a" 1 t) [CallSet "a" 1 0; CallSet "b" 2 3; CallGet "a" 5] /\
    7 <= t + ttlSeconds config_two * 1000.
Proof.
  apply (get_serves_fresh Z config_two
           [CallSet "a" 1 0; CallSet "b" 2 3; CallGet "a" 5] "a" 7 1
           (snd (get "a" 7
                   (run config_two [CallSet "a" 1 0; CallSet "b" 2 3; CallGet "a" 5]
                      (makeCache Z))))).
  reflexivity.
Defined.

Lemma set_touches_two_keys_witness :
  (Map_get "a" (current (snd (set config_two "c" 3 0 cache_a_b)))
   = Map_get "a" (current cache_a_b)
   \/ (must_evict config_two "c" (current cache_a_b) = true /\
       lruKey (current cache_a_b) = Some "a" /\
       Map_get "a" (current (snd (set config_two "c" 3 0 cache_a_b))) = None))
  /\ (Map_get "b" (current (snd (set config_two "c" 3 0 cache_a_b)))
      = Map_get "b" (current cache_a_b)
      \/ (must_evict config_two "c" (current cache_a_b) = true /\
          lruKey (current cache_a_b) = Some "b" /\
          Map_get "b" (current (snd (set config_two "c" 3 0 cache_a_b))) = None)).
Proof.
  destruct (set_touches_two_keys Z config_two "c" 3 0 cache_a_b) as (Hother & _).
  split; [apply (Hother "a") | apply (Hother "b")]; discriminate.
Defined.

Lemma set_spares_more_read_witness :
  Map_get "a" (current (snd (set config_two "c" 3 0 cache_a_b)))
  = Some (bump (new_entry config_two 1 0)).
Proof.
  apply (set_spares_more_read Z config_two "c" 3 0 cache_a_b
           "a" (bump (new_entry config_two 1 0)) "b" (new_entry config_two 2 0));
    [reflexivity | discriminate | reflexivity | reflexivity | simpl; lia].
Defined.

Lemma set_evicts_oldest_witness :
  exists st',
    set config_two "c" 3 9
      (run config_two [CallSet "a" 1 0; CallSet "b" 2 4] (makeCache Z))
    = (Success tt, st') /\
    current st' = [("b", new_entry config_two 2 4)] ++ [("c", new_entry config_two 3 9)].
Proof.
  apply (set_evicts_oldest Z config_two "c" 3 9
           (run config_two [CallSet "a" 1 0; CallSet "b" 2 4] (makeCache Z))
           "a" (new_entry config_two 1 0) [("b", new_entry config_two 2 4)]);
    [reflexivity | reflexivity | reflexivity | | reflexivity | discriminate].
  intros k e [[= <- <-]|[]]. simpl. lia.
Defined.

Lemma get_touches_one_key_witness :
  let st := run config_two [CallSet "a" 1 0; CallSet "b" 2 0] (makeCache Z) in
  Map_get "b" (current (snd (get "a" 100001 st))) = Map_get "b" (current st)
  /\ (Map_size (current (snd (get "a" 100001%Z st))) <= Map_size (current st))%nat
  /\ S (Map_size (current (snd (get "a" 100001 st)))) = Map_size (current st).
Proof.
  cbv zeta.
  destruct (get_touches_one_key Z "a" 100001
              (run config_two [CallSet "a" 1 0; CallSet "b" 2 0] (makeCache Z)))
    as (Hother & Hsize & Hone).
  split; [apply Hother; discriminate|]. split; [exact Hsize|].
  apply (Hone (new_entry config_two 1 0)); reflexivity.
Defined.

Lemma failures_name_their_cause_witness :
  (CacheMissError "a" = CacheMissError "a" /\ Map_get "a" (current (makeCache Z)) = None
   \/ exists e,
        Map_get "a" (current (makeCache Z)) = Some e /\ expiresAt e < 0 /\
        CacheMissError "a" = CacheExpiredError "a" (cachedAt e) (expiresAt e))
  /\ (let st := run config_one [CallSet "" 1 0] (makeCache Z) in
      CacheFullError 1 1
      = CacheFullError (maxSize config_one) (Z.of_nat (Map_size (current st))) /\
      maxSize config_one <= Z.of_nat (Map_size (current st)) /\
      Map_has "a" (current st) = false /\
      enabled config_one = true).
Proof.
  split.
  - destruct (failures_name_their_cause Z config_one "a" 2 0 (makeCache Z))
      as (Hget & _).
    apply (Hget (CacheMissError "a") (makeCache Z)). reflexivity.
  - cbv zeta.
    destruct (failures_name_their_cause Z config_one "a" 2 5
                (run config_one [CallSet "" 1 0] (makeCache Z))) as (_ & Hset).
    apply (Hset (CacheFullError 1 1) (run config_one [CallSet "" 1 0] (makeCache Z))).
    reflexivity.
Defined.

Lemma clear_effect_clears_once_witness :
  let eff := fst (clear (makeCache Z)) in
  let st1 := snd (eff (run config_two [CallSet "z" 9 0] (snd (clear (makeCache Z))))) in
  let st2 := run config_two [CallSet "a" 1 0; CallGet "a" 2] st1 in
  fst (eff st2) = Success tt /\
  current (snd (eff st2)) = current st2 /\
  fst (size (snd (eff st2))) = fst (size st2) /\
  forall key now, fst (get key now (snd (eff st2))) = fst (get key now st2).
Proof.
  apply (clear_effect_clears_once Z config_two
           [CallSet "z" 9 0] [CallSet "a" 1 0; CallGet "a" 2] (makeCache Z)).
  reflexivity.
Defined.

(** ** The properties of the weather service at a concrete service *)


Lemma service_failure_stores_nothing_witness :
  let st := snd (refreshWeather loc_id config_two (api_up 21) "nyc" 0 (makeCache Z)) in
  let st' := snd (getCurrentWeather loc_id config_two api_down "nyc" 100001 100002 st) in
  Map_get (cacheKey loc_id "nyc") (current st') = None
  /\ snd (refreshWeather loc_id config_two api_down "nyc" 7 st) = st.
Proof.
  cbv zeta.
  destruct (service_failure_stores_nothing Z string string loc_id config_two
              api_down "nyc" 100001 100002
              (snd (refreshWeather loc_id config_two (api_up 21) "nyc" 0 (makeCache Z)))
              "timeout") as (Hget & _).
  destruct (service_failure_stores_nothing Z string string loc_id config_two
              api_down "nyc" 5 7
              (snd (refreshWeather loc_id config_two (api_up 21) "nyc" 0 (makeCache Z)))
              "timeout") as (_ & Hrefresh).
  split; [exact (proj1 (Hget eq_refl)) | exact (Hrefresh eq_refl)].
Defined.

Lemma service_keys_witness :
  exists l, "weather:nyc" = cacheKey loc_id l.
Proof.
  apply (service_keys Z string string loc_id config_two
           [ServeCurrent (api_up 21) "nyc" 0 1; ServeRefresh (api_up 22) "oslo" 3]
           "weather:nyc").
  reflexivity.
Defined.

Lemma service_serves_fresh_witness :
  api_down "nyc" = inr 21 \/
  exists c api0 l0 t,
    In c [ServeCurrent (api_up 21) "nyc" 0 1; ServeRefresh (api_up 22) "oslo" 3] /\
    loc_id l0 = loc_id "nyc" /\ api0 l0 = inr 21 /\
    50 <= t + ttlSeconds config_two * 1000 /\
    (c = ServeRefresh api0 l0 t \/ exists now0, c = ServeCurrent api0 l0 now0 t).
Proof.
  apply (service_serves_fresh Z string string loc_id config_two
           [ServeCurrent (api_up 21) "nyc" 0 1; ServeRefresh (api_up 22) "oslo" 3]
           api_down "nyc" 50 51 21).
  reflexivity.
Defined.

(** ** An entry between two sets of its key *)

Section EntryLife.

Variable V : Type.
Variable config : CacheConfigType.

Implicit Types (st : Store V) (e : CacheEntry V) (k key : string).
Implicit Types (cs : list (Call V)).

(** As long as its key is not set again, an entry that is still there has
    its value and dates, and one more [accessCount] for each [get] of the
    key that succeeded. *)
Lemma entry_life k cs : forall st e e',
  ~ In k (keys_set cs) ->
  Map_get k (current st) = Some e ->
  Map_get k (current (run config cs st)) = Some e' ->
  accessCount e' = (accessCount e + hits config k cs st)%nat /\
  value e' = value e /\ cachedAt e' = cachedAt e /\ expiresAt e' = expiresAt e.
Proof.
  induction cs as [|c cs IH]; intros st e e' Hk He He'.
  - unfold run in He'. simpl in He'. rewrite He in He'. injection He' as <-.
    simpl. repeat split. lia.
  - rewrite run_cons in He'. cbn [hits].
    assert (Hk' : ~ In k (keys_set cs)).
    { intros Hin. apply Hk. destruct c; simpl; auto. }
    destruct (Map_get k (current (exec config c st))) as [e1|] eqn:He1.
    2:{ apply Map_has_false in He1.
        pose proof (run_absent V config k cs _ Hk' He1) as Habs.
        apply Map_has_false in Habs. congruence. }
    destruct (IH _ e1 e' Hk' He1 He') as (Hc & Hv & Hca & Hex).
    assert (Hstep :
      accessCount e1
      = (accessCount e
         + match c with
           | CallGet key now =>
               if String.eqb key k
               then match fst (get key now st) with
                    | Success _ => 1 | Failure _ => 0 end
               else 0
           | _ => 0
           end)%nat
      /\ value e1 = value e /\ cachedAt e1 = cachedAt e /\ expiresAt e1 = expiresAt e).
    { destruct c as [key now|key v now| |].
      - cbn [exec] in He1. destruct (String.eqb_spec key k) as [->|Hne].
        + destruct (get_cases V k now st)
            as [[Hg _]|[(e0 & Hg & Ht & H)|(e0 & Hg & Hl & H)]].
          * congruence.
          * rewrite H in He1. cbn [snd] in He1.
            rewrite current_with_current, Map_get_delete_same in He1. discriminate.
          * rewrite H in He1 |- *. cbn [fst snd] in *.
            rewrite current_with_current in He1.
            rewrite (Map_get_bump_same V k e0 _ Hg) in He1.
            injection He1 as <-. rewrite He in Hg. injection Hg as <-.
            simpl. repeat split. lia.
        + rewrite get_other in He1 by congruence.
          rewrite He in He1. injection He1 as <-. repeat split. lia.
      - cbn [exec] in He1.
        assert (Hne : k <> key) by (intros ->; apply Hk; simpl; now left).
        destruct (set_other V config key v now st k Hne) as [Hsame|(_ & _ & Hnone)].
        + rewrite Hsame, He in He1. injection He1 as <-. repeat split. lia.
        + congruence.
      - rewrite exec_clear in He1. discriminate.
      - cbn [exec] in He1. rewrite size_run in He1. cbn [snd] in He1.
        rewrite He in He1. injection He1 as <-. repeat split. lia. }
    destruct Hstep as (Hc1 & Hv1 & Hca1 & Hex1).
    repeat split; try congruence. lia.
Qed.

Lemma set_success_stores key v now st st1 :
  enabled config = true ->
  set config key v now st = (Success tt, st1) ->
  Map_get key (current st1) = Some (new_entry config v now).
Proof.
  intros Hen H.
  destruct (set_cases V config key v now st)
    as [[Hd _]|[(_ & _ & H1)|[(k0 & _ & _ & _ & _ & H1)|(_ & _ & _ & H1)]]];
    [congruence | | | rewrite H1 in H; discriminate];
    rewrite H1 in H; injection H as <-;
    rewrite current_with_current; apply Map_get_set_same.
Qed.

(** X15.  The last [set] wins.  After a [set(k, v)] that succeeded on an
    enabled cache, and whatever calls follow that do not set [k] again, a
    [get(k)] that succeeds answers [v]. *)
Theorem get_answers_last_set k v t st st1 cs now v' st2 :
  enabled config = true ->
  set config k v t st = (Success tt, st1) ->
  ~ In k (keys_set cs) ->
  get k now (run config cs st1) = (Success v', st2) ->
  v' = v.
Proof.
  intros Hen Hset Hk Hget.
  pose proof (set_success_stores k v t st st1 Hen Hset) as Hnew.
  destruct (get_cases V k now (run config cs st1))
    as [[_ H]|[(e & _ & _ & H)|(e & He & _ & H)]];
    rewrite H in Hget; try discriminate.
  injection Hget as <- _.
  destruct (entry_life k cs st1 _ e Hk Hnew He) as (_ & Hv & _).
  exact Hv.
Qed.

(** X16.  [accessCount] counts the reads.  After a [set(k, v)] that
    succeeded on an enabled cache at [t], and whatever calls follow that do
    not set [k] again, the entry of [k], if it is still there, has the value
    [v], was cached at [t] and has as its [accessCount] the number of
    [get(k)] that succeeded since. *)
Theorem accessCount_counts_hits k v t st st1 cs e :
  enabled config = true ->
  set config k v t st = (Success tt, st1) ->
  ~ In k (keys_set cs) ->
  Map_get k (current (run config cs st1)) = Some e ->
  accessCount e = hits config k cs st1 /\
  value e = v /\ cachedAt e = t /\
  expiresAt e = t + ttlSeconds config * 1000.
Proof.
  intros Hen Hset Hk He.
  pose proof (set_success_stores k v t st st1 Hen Hset) as Hnew.
  destruct (entry_life k cs st1 _ e Hk Hnew He) as (Hc & Hv & Hca & Hex).
  simpl in *. auto.
Qed.

End EntryLife.

Lemma get_answers_last_set_witness :
  let st1 := snd (set config_two "a" 1 4
                    (run config_two [CallSet "a" 7 0] (makeCache Z))) in
  let cs := [CallSet "b" 2 5; CallGet "a" 6; CallSet "c" 3 7] in
  exists v', fst (get "a" 8 (run config_two cs st1)) = Success v' /\ v' = 1.
Proof.
  cbv zeta. eexists. split; [reflexivity|].
  apply (get_answers_last_set Z config_two "a" 1 4
           (run config_two [CallSet "a" 7 0] (makeCache Z))
           (snd (set config_two "a" 1 4 (run config_two [CallSet "a" 7 0] (makeCache Z))))
           [CallSet "b" 2 5; CallGet "a" 6; CallSet "c" 3 7] 8 1
           (snd (get "a" 8
                   (run config_two [CallSet "b" 2 5; CallGet "a" 6; CallSet "c" 3 7]
                      (snd (set config_two "a" 1 4
                              (run config_two [CallSet "a" 7 0] (makeCache Z))))))));
    [reflexivity | reflexivity | simpl; intuition discriminate | reflexivity].
Defined.

Lemma accessCount_counts_hits_witness :
  let st1 := snd (set config_two "a" 1 4 (makeCache Z)) in
  let cs := [CallGet "a" 5; CallSet "b" 2 6; CallGet "a" 7; CallGet "z" 8] in
  exists e,
    Map_get "a" (current (run config_two cs st1)) = Some e /\
    accessCount e = hits config_two "a" cs st1 /\
    hits config_two "a" cs st1 = 2%nat /\
    value e = 1 /\ cachedAt e = 4 /\
    expiresAt e = 4 + ttlSeconds config_two * 1000.
Proof.
  cbv zeta. eexists. split; [reflexivity|].
  destruct (accessCount_counts_hits Z config_two "a" 1 4 (makeCache Z)
              (snd (set config_two "a" 1 4 (makeCache Z)))
              [CallGet "a" 5; CallSet "b" 2 6; CallGet "a" 7; CallGet "z" 8]
              (bump (bump (new_entry config_two 1 4))))
    as (Hc & Hv & Hca & Hex);
    [reflexivity | reflexivity | simpl; intuition discriminate | reflexivity |].
  repeat split; assumption.
Defined.

(** ** The service over a cache that stores nothing *)

Section ServiceWithoutCache.

Variable V : Type.
Variable ApiError : Type.
Variable Location : Type.
Variable id : Location -> string.
Variable config : CacheConfigType.

Lemma run_stays_empty (cs : list (Call V)) : forall st,
  enabled config = false \/ maxSize config <= 0 ->
  current st = [] -> current (run config cs st) = [].
Proof.
  induction cs as [|c cs IH]; intros st Hoff Hcur; [exact Hcur|].
  rewrite run_cons. apply IH; [exact Hoff|].
  destruct Hoff as [Hen|Hmax];
    [now apply exec_disabled | now apply exec_stays_empty].
Qed.

(** X17.  With the cache disabled, or with [maxSize <= 0], the service is a
    pass-through: after any calls of the service on the new cache,
    [getCurrentWeather] and [refreshWeather] answer what the API answers,
    and the cache stays empty. *)
Theorem service_pass_through
    (scs : list (ServiceCall V ApiError Location))
    (api : Location -> ApiError + V) (l : Location) (now now' : Date) :
  enabled config = false \/ maxSize config <= 0 ->
  let st := serve_all id config scs (makeCache V) in
  fst (getCurrentWeather id config api l now now' st) = api l /\
  fst (refreshWeather id config api l now' st) = api l /\
  current (snd (getCurrentWeather id config api l now now' st)) = [] /\
  current (snd (refreshWeather id config api l now' st)) = [].
Proof.
  intros Hoff st.
  assert (Hall : forall scs' : list (ServiceCall V ApiError Location),
             current (serve_all id config scs' (makeCache V)) = []).
  { intros scs'. rewrite serve_all_run. now apply run_stays_empty. }
  assert (Hmiss : Map_get (cacheKey id l) (current st) = None)
    by (unfold st; now rewrite Hall).
  split; [|split; [|split]].
  - rewrite (getCurrentWeather_fetch V ApiError Location id config api l now now' st
               (or_introl Hmiss)).
    destruct (api l); reflexivity.
  - unfold refreshWeather. destruct (api l); reflexivity.
  - change (current (serve id config (ServeCurrent api l now now') st) = []).
    unfold st. pose proof (Hall (scs ++ [ServeCurrent api l now now'])) as H.
    unfold serve_all in H. rewrite fold_left_app in H. exact H.
  - change (current (serve id config (ServeRefresh api l now') st) = []).
    unfold st. pose proof (Hall (scs ++ [ServeRefresh api l now'])) as H.
    unfold serve_all in H. rewrite fold_left_app in H. exact H.
Qed.

End ServiceWithoutCache.

Lemma service_pass_through_witness :
  let st := serve_all loc_id config_off
              [ServeRefresh (api_up 21) "nyc" 0; ServeCurrent (api_up 22) "nyc" 1 2]
              (makeCache Z) in
  fst (getCurrentWeather loc_id config_off api_down "nyc" 3 4 st) = inl "timeout" /\
  fst (refreshWeather loc_id config_zero (api_up 23) "nyc" 4 (makeCache Z)) = inr 23.
Proof.
  cbv zeta. split.
  - apply (service_pass_through Z string string loc_id config_off
             [ServeRefresh (api_up 21) "nyc" 0; ServeCurrent (api_up 22) "nyc" 1 2]
             api_down "nyc" 3 4).
    left. reflexivity.
  - apply (service_pass_through Z string string loc_id config_zero []
             (api_up 23) "nyc" 3 4).
    right. vm_compute. discriminate.
Defined.

(** ** Operations run as fibers *)

Section FiberFacts.

Variable V : Type.
Variable config : CacheConfigType.

(** Run with no other fiber in between, the generators are the operations. *)
Lemma finish_get_fiber (key : string) (now : Date) (st : Store V) :
  finish (get_fiber V key now) st = get key now st.
Proof.
  unfold get_fiber, get, bind, Ref_get, read. cbn [finish].
  destruct (Map_get key (heap st (cacheRef st))) as [entry|]; [|reflexivity].
  destruct (now >? expiresAt entry); reflexivity.
Qed.

Lemma finish_set_fiber (key : string) (v : V) (now : Date) (st : Store V) :
  finish (set_fiber config key v now) st = set config key v now st.
Proof.
  unfold set_fiber, set. destruct (enabled config); [|reflexivity].
  cbn [negb]. unfold bind, Ref_get, read, evict. cbn [finish]. cbv zeta.
  destruct ((Z.of_nat (Map_size (heap st (cacheRef st))) >=? maxSize config)
            && negb (Map_has key (heap st (cacheRef st)))); [|reflexivity].
  destruct (truthy (lruKey (heap st (cacheRef st)))); reflexivity.
Qed.

End FiberFacts.

(** C6.  Two fibers run [set("a", 1)] and [set("b", 2)] on a new cache of
    capacity 1.  Under the schedule in which the first fiber runs its
    [Ref.get] and capacity test, the second fiber then runs to its end, and
    the first fiber then runs its [Ref.update], both sets succeed and the Map
    holds two entries; run one after the other, in either order, the two sets
    leave one entry.  The [set] of the first fiber is not one indivisible
    transition: the second fiber's write falls between its read and its
    write. *)
Theorem sets_interleave_past_capacity :
  let a := set_fiber config_one "a" 1 0 in
  let b := set_fiber config_one "b" 2 0 in
  fst (interleave [true; false; false; true] a b (makeCache Z))
  = (Done (Success tt), Done (Success tt))
  /\ counts (current (snd (interleave [true; false; false; true] a b (makeCache Z))))
     = [("b", 0%nat); ("a", 0%nat)]
  /\ finish a (makeCache Z) = set config_one "a" 1 0 (makeCache Z)
  /\ counts (current (snd (finish b (snd (finish a (makeCache Z)))))) = [("b", 0%nat)]
  /\ counts (current (snd (finish a (snd (finish b (makeCache Z)))))) = [("a", 0%nat)].
Proof.
  cbv zeta. split; [reflexivity|]. split; [reflexivity|].
  split; [apply finish_set_fiber|]. split; reflexivity.
Qed.

(** ** What the service has fetched *)

Section ServiceFetched.

Variable V : Type.
Variable ApiError : Type.
Variable Location : Type.
Variable id : Location -> string.
Variable config : CacheConfigType.

(** X13.  With the cache enabled and room for at least one entry, the
    service always caches what it fetched, whatever calls of the service
    came before on the new cache.  Let [st1] be the store right after a
    [refreshWeather], or a [getCurrentWeather] that found no live entry,
    got the reading [fresh] from the API and set it at [t].  (1) A
    [getCurrentWeather] for that location made on [st1], with no call in
    between, at a reading up to [t + ttlSeconds], answers [fresh], whatever
    the API would answer then.  (2) After any further calls of the service,
    none of which set the key of that location again, a [getCurrentWeather]
    for that location answers [fresh] or what the API answers then (the
    entry may have been evicted or have expired), never another reading. *)
Theorem service_caches_what_it_fetched
    (scs : list (ServiceCall V ApiError Location))
    (api : Location -> ApiError + V) (l : Location) (fresh : V) (t : Date)
    (st1 : Store V) :
  enabled config = true ->
  1 <= maxSize config ->
  api l = inr fresh ->
  let st := serve_all id config scs (makeCache V) in
  (st1 = snd (refreshWeather id config api l t st)
   \/ exists now,
        (Map_get (cacheKey id l) (current st) = None \/
         (exists e, Map_get (cacheKey id l) (current st) = Some e /\
                    expiresAt e < now)) /\
        st1 = snd (getCurrentWeather id config api l now t st)) ->
  (forall (api' : Location -> ApiError + V) t1 t1',
     t1 <= t + ttlSeconds config * 1000 ->
     fst (getCurrentWeather id config api' l t1 t1' st1) = inr fresh)
  /\ (forall (scs' : list (ServiceCall V ApiError Location))
             (api' : Location -> ApiError + V) t1 t1',
        ~ In (cacheKey id l) (keys_set (cache_history id config scs' st1)) ->
        fst (getCurrentWeather id config api' l t1 t1'
               (serve_all id config scs' st1)) = inr fresh
        \/ fst (getCurrentWeather id config api' l t1 t1'
                  (serve_all id config scs' st1)) = api' l).
Proof.
  intros Hen Hmax Hapi st Hst1.
  assert (Hno : Map_has "" (current st) = false)
    by apply serve_all_no_empty_key.
  assert (Hstored : Map_get (cacheKey id l) (current st1)
                    = Some (new_entry config fresh t)).
  { destruct Hst1 as [->|(now & Hmiss & ->)].
    - unfold refreshWeather. rewrite Hapi. cbn [snd].
      now apply set_or_void_stores.
    - rewrite (getCurrentWeather_fetch V ApiError Location id config
                 api l now t st Hmiss), Hapi. cbn [snd].
      apply set_or_void_stores; [exact Hen | exact Hmax |].
      apply exec_absent; [discriminate | exact Hno]. }
  split.
  - intros api' t1 t1' Ht.
    now rewrite (getCurrentWeather_hit V ApiError Location id config
                   api' l t1 t1' st1 _ Hstored Ht).
  - intros scs' api' t1 t1' Hk.
    set (st2 := serve_all id config scs' st1).
    destruct (get_cases V (cacheKey id l) t1 st2)
      as [[Hg _]|[(e & Hg & Ht & _)|(e & Hg & Hl & _)]].
    + right. rewrite (getCurrentWeather_fetch V ApiError Location id config
                        api' l t1 t1' st2 (or_introl Hg)).
      destruct (api' l); reflexivity.
    + right.
      assert (Hmiss : Map_get (cacheKey id l) (current st2) = None \/
                      exists e, Map_get (cacheKey id l) (current st2) = Some e /\
                                expiresAt e < t1) by (right; eauto).
      rewrite (getCurrentWeather_fetch V ApiError Location id config
                 api' l t1 t1' st2 Hmiss).
      destruct (api' l); reflexivity.
    + left. rewrite (getCurrentWeather_hit V ApiError Location id config
                       api' l t1 t1' st2 e Hg Hl). cbn [fst].
      unfold st2 in Hg. rewrite serve_all_run in Hg.
      destruct (entry_life V config (cacheKey id l) _ st1 _ e Hk Hstored Hg)
        as (_ & Hv & _).
      now rewrite Hv.
Qed.

End ServiceFetched.

Lemma service_caches_what_it_fetched_witness :
  let st := serve_all loc_id config_one
              [ServeRefresh (api_up 21) "nyc" 0] (makeCache Z) in
  let st1 := snd (refreshWeather loc_id config_one (api_up 5) "oslo" 9 st) in
  let scs' := [ServeCurrent (api_up 99) "nyc" 10 11] in
  fst (getCurrentWeather loc_id config_one api_down "oslo" 100009 100010 st1) = inr 5
  /\ (fst (getCurrentWeather loc_id config_one (api_up 7) "oslo" 12 13
             (serve_all loc_id config_one scs' st1)) = inr 5
      \/ fst (getCurrentWeather loc_id config_one (api_up 7) "oslo" 12 13
                (serve_all loc_id config_one scs' st1)) = api_up 7 "oslo").
Proof.
  cbv zeta.
  destruct (service_caches_what_it_fetched Z string string loc_id config_one
              [ServeRefresh (api_up 21) "nyc" 0] (api_up 5) "oslo" 5 9
              (snd (refreshWeather loc_id config_one (api_up 5) "oslo" 9
                      (serve_all loc_id config_one
                         [ServeRefresh (api_up 21) "nyc" 0] (makeCache Z))))
              eq_refl) as (Hnext & Hlater);
    [vm_compute; discriminate | reflexivity | left; reflexivity |].
  split.
  - apply (Hnext api_down 100009 100010). vm_compute. discriminate.
  - apply (Hlater [ServeCurrent (api_up 99) "nyc" 10 11] (api_up 7) 12 13).
    simpl. intuition discriminate.
Defined.

(** The first step of [set] when there is room: the entry is still to be
    written. *)
Lemma set_fiber_room (V : Type) (config : CacheConfigType)
    (key : string) (v : V) (now : Date) (st : Store V) :
  enabled config = true ->
  must_evict config key (current st) = false ->
  step (set_fiber config key v now) st
  = (Yield (Ref_update (fun s =>
              mutate s (Map_set key (new_entry config v now)) ;; Effect_succeed s))
       (fun _ _ => Done (Success tt)),
     st).
Proof.
  intros Hen Hev. unfold set_fiber, step, Ref_get. rewrite Hen. cbn [negb].
  change (heap st (cacheRef st)) with (current st).
  unfold must_evict in Hev. rewrite Hev. reflexivity.
Qed.

(** The same race from any store whose Map is empty, for any two keys:
    when both fibers have made their capacity test before either has
    written, both entries are stored, also when [maxSize] is 1. *)
Lemma sets_race (V : Type) (config : CacheConfigType)
    (a b : string) (va vb : V) (ta tb : Date) (st : Store V) :
  enabled config = true ->
  1 <= maxSize config ->
  current st = [] ->
  a <> b ->
  fst (interleave [true; false; false; true]
         (set_fiber config a va ta) (set_fiber config b vb tb) st)
  = (Done (Success tt), Done (Success tt))
  /\ current (snd (interleave [true; false; false; true]
                     (set_fiber config a va ta) (set_fiber config b vb tb) st))
     = [(b, new_entry config vb tb); (a, new_entry config va ta)].
Proof.
  intros Hen Hmax Hcur Hab.
  assert (Hroom : forall key, must_evict config key (current st) = false).
  { intros key. unfold must_evict. rewrite Hcur. simpl.
    rewrite andb_true_r, Z.geb_leb. apply Z.leb_gt. lia. }
  cbn [interleave].
  rewrite (set_fiber_room V config a va ta st Hen (Hroom a)).
  rewrite (set_fiber_room V config b vb tb st Hen (Hroom b)).
  cbn [step]. rewrite Ref_update_mutate. cbn [step]. rewrite Ref_update_mutate.
  cbn [fst snd]. split; [reflexivity|].
  rewrite !current_with_current, Hcur. simpl.
  apply String.eqb_neq in Hab. rewrite String.eqb_sym, Hab. reflexivity.
Qed.
